(** * Scheduled traffic data collector: model and verified properties

    A shallow embedding of [collector_scheduled.py].  The script reads the
    active region from [collection_config], decides whether the configured
    interval has elapsed, queries the Distance Matrix API once per road
    segment and writes the observations and a [query_log] row.

    Python values coming out of the JSON body are modelled with their dynamic
    typing (subscripts, [.get], truthiness and arithmetic raise as Python
    does), Python floats are IEEE-754 doubles with their rounding; the
    database, the clock, the HTTP endpoint and standard output are fields of
    an explicit [World] threaded through a state-and-exception monad. *)

From Stdlib Require Import ZArith QArith Qround Qpower List String Bool Lia Lqa.
Import ListNotations.

Open Scope Z_scope.

(** ** Doubles *)

(** A finite double is the rational it denotes; the operations on floats
    compute the exact result and round it to the nearest double, ties to
    even, as IEEE-754 binary64 does. *)
Module Double.

Definition pow2 (e : Z) : Q := (2 ^ e)%Q.

(** The exponent of a positive rational:
    [2^(ilog2 x) <= x < 2^(ilog2 x + 1)]. *)
Definition ilog2 (x : Q) : Z :=
  let k := Z.log2 (Qnum x) - Z.log2 (Zpos (Qden x)) in
  if Qle_bool (pow2 k) x then k else k - 1.

(** The nearest integer, ties to even. *)
Definition rne (x : Q) : Z :=
  let f := Qfloor x in
  match (x - inject_Z f ?= 1 # 2)%Q with
  | Lt => f
  | Gt => f + 1
  | Eq => if Z.even f then f else f + 1
  end.

(** 53 significant bits; below [2^-1022] the spacing stays that of the
    subnormals. *)
Definition round_pos (x : Q) : Q :=
  let e := Z.max (ilog2 x) (-1022) in
  (inject_Z (rne (x * pow2 (52 - e))) * pow2 (e - 52))%Q.

(** What rounds to [2^1024] or beyond has overflowed: [2^1024] stands for
    infinity. *)
Definition infinity : Q := pow2 1024.

Definition clamp (x : Q) : Q := if Qle_bool infinity x then infinity else x.

Definition round (x : Q) : Q :=
  match (x ?= 0)%Q with
  | Eq => 0%Q
  | Gt => clamp (round_pos x)
  | Lt => (- clamp (round_pos (- x)))%Q
  end.

(** [int(x)] for a finite [x]: towards zero. *)
Definition truncate (x : Q) : Z := Z.quot (Qnum x) (Zpos (Qden x)).

End Double.

(** ** Python values and the exceptions their operations raise *)

Module Py.

#[local] Set Warnings "-register-all".

(** A Python float: not-a-number, an infinity, or a finite double given by
    its value (the two zeros are not told apart). *)
Inductive float : Type :=
| FNaN
| FInf (negative : bool)
| FNum (q : Q).

(** The result of [response.json()]: a JSON number without fraction or
    exponent is an int of any size, any other number a float ([NaN] and
    [Infinity] are accepted by the parser); a dict is the list of its
    bindings and a lookup takes the first one for a key. *)
Inductive value : Type :=
| VNone
| VBool (b : bool)
| VInt (z : Z)
| VFloat (f : float)
| VStr (s : string)
| VList (l : list value)
| VDict (d : list (string * value)).

(** The subclasses of [Exception] the script can meet. *)
Inductive exn : Type :=
| KeyError
| TypeError
| IndexError
| AttributeError
| ZeroDivisionError
| OverflowError
| ConnectionError
| Timeout
| JSONDecodeError
| DatabaseError.

Inductive res (A : Type) : Type :=
| Ok (a : A)
| Raise (e : exn).
Arguments Ok {A} a.
Arguments Raise {A} e.

Fixpoint lookup (k : string) (d : list (string * value)) : option value :=
  match d with
  | [] => None
  | (k', v) :: d' => if String.eqb k k' then Some v else lookup k d'
  end.

(** [v[k]] for a string key [k]. *)
Definition getitem (v : value) (k : string) : res value :=
  match v with
  | VDict d => match lookup k d with Some x => Ok x | None => Raise KeyError end
  | _ => Raise TypeError
  end.

(** [v[0]]: lists and strings are indexable, a dict from JSON has no key
    [0], anything else is not subscriptable. *)
Definition getitem0 (v : value) : res value :=
  match v with
  | VList (x :: _) => Ok x
  | VList [] => Raise IndexError
  | VStr (String c _) => Ok (VStr (String c EmptyString))
  | VStr EmptyString => Raise IndexError
  | VDict _ => Raise KeyError
  | _ => Raise TypeError
  end.

(** [v.get(k, default)]: only dicts have the method. *)
Definition get (v : value) (k : string) (default : value) : res value :=
  match v with
  | VDict d => Ok (match lookup k d with Some x => x | None => default end)
  | _ => Raise AttributeError
  end.

(** [v == s] for a string literal [s]; comparison never raises. *)
Definition eq_str (v : value) (s : string) : bool :=
  match v with
  | VStr t => String.eqb t s
  | _ => false
  end.

(** Truth value testing: a float is false when it is zero, so the infinities
    and not-a-number are true. *)
Definition truthy (v : value) : bool :=
  match v with
  | VNone => false
  | VBool b => b
  | VInt z => negb (z =? 0)
  | VFloat (FNum q) => negb (Qeq_bool q 0)
  | VFloat _ => true
  | VStr s => negb (String.eqb s EmptyString)
  | VList l => match l with [] => false | _ => true end
  | VDict d => match d with [] => false | _ => true end
  end.

(** The operands of arithmetic: ints (with [bool], a subclass of [int]) and
    floats. *)
Inductive number : Type :=
| NInt (z : Z)
| NFloat (f : float).

Definition as_number (v : value) : option number :=
  match v with
  | VInt z => Some (NInt z)
  | VBool b => Some (NInt (if b then 1 else 0))
  | VFloat f => Some (NFloat f)
  | _ => None
  end.

Definition is_zero (n : number) : bool :=
  match n with
  | NInt z => z =? 0
  | NFloat (FNum q) => Qeq_bool q 0
  | NFloat _ => false
  end.

(** An int has a double when it is below the midpoint between the largest
    double and [2^1024]. *)
Definition too_big (z : Z) : bool := 2 ^ 1024 - 2 ^ 970 <=? Z.abs z.

(** The conversion of an operand that meets a float. *)
Definition to_float (n : number) : res float :=
  match n with
  | NFloat f => Ok f
  | NInt z =>
      if too_big z then Raise OverflowError
      else Ok (FNum (Double.round (inject_Z z)))
  end.

(** The double nearest to an exact result; float arithmetic overflows to an
    infinity without raising. *)
Definition of_Q (q : Q) : float :=
  let r := Double.round q in
  if Qle_bool Double.infinity r then FInf false
  else if Qle_bool r (- Double.infinity) then FInf true
  else FNum r.

Definition negative (q : Q) : bool :=
  match (q ?= 0)%Q with Lt => true | _ => false end.

Definition fsub (x y : float) : float :=
  match x, y with
  | FNaN, _ | _, FNaN => FNaN
  | FInf a, FInf b => if Bool.eqb a b then FNaN else FInf a
  | FInf a, FNum _ => FInf a
  | FNum _, FInf b => FInf (negb b)
  | FNum p, FNum q => of_Q (p - q)
  end.

Definition fmul (x y : float) : float :=
  match x, y with
  | FNaN, _ | _, FNaN => FNaN
  | FInf a, FInf b => FInf (xorb a b)
  | FInf a, FNum q | FNum q, FInf a =>
      if Qeq_bool q 0 then FNaN else FInf (xorb a (negative q))
  | FNum p, FNum q => of_Q (p * q)
  end.

(** [x / y] for a divisor that is not zero. *)
Definition fdiv (x y : float) : float :=
  match x, y with
  | FNaN, _ | _, FNaN => FNaN
  | FInf _, FInf _ => FNaN
  | FInf a, FNum q => FInf (xorb a (negative q))
  | FNum _, FInf _ => FNum 0
  | FNum p, FNum q => of_Q (p / q)
  end.

(** [a - b]: exact on two ints, on doubles as soon as one operand is a
    float. *)
Definition sub (a b : value) : res value :=
  match as_number a, as_number b with
  | Some (NInt x), Some (NInt y) => Ok (VInt (x - y))
  | Some x, Some y =>
      match to_float x, to_float y with
      | Ok fx, Ok fy => Ok (VFloat (fsub fx fy))
      | Raise e, _ | _, Raise e => Raise e
      end
  | _, _ => Raise TypeError
  end.

(** The quotient of two ints is rounded to a double; it is out of range when
    it reaches the midpoint between the largest double and [2^1024]. *)
Definition float_overflow (x y : Z) : bool :=
  (2 ^ 1024 - 2 ^ 970) * Z.abs y <=? Z.abs x.

(** [a / b], true division.  Two ints give the double nearest to the exact
    quotient; with a float among the operands both are doubles first, and
    only a zero divisor raises. *)
Definition truediv (a b : value) : res float :=
  match as_number a, as_number b with
  | Some (NInt x), Some (NInt y) =>
      if y =? 0 then Raise ZeroDivisionError
      else if float_overflow x y then Raise OverflowError
      else Ok (FNum (Double.round (inject_Z x / inject_Z y)))
  | Some x, Some y =>
      match to_float x, to_float y with
      | Ok fx, Ok fy =>
          if is_zero (NFloat fy) then Raise ZeroDivisionError
          else Ok (fdiv fx fy)
      | Raise e, _ | _, Raise e => Raise e
      end
  | _, _ => Raise TypeError
  end.

(** [x * c] for a float [x] and a literal [c], a float or a small int. *)
Definition mul_float (x : float) (c : Q) : float :=
  fmul x (FNum (Double.round c)).

End Py.

Import Py.

(** ** The stored data *)

Record RegionRow : Type := mkRegion {
  region_id : Z;
  region_name : option string;
  segment_count : Z
}.

(** [last_queried_at] and [updated_at] are instants in microseconds, the
    resolution of [datetime]; [interval_hours] is the decimal of a NUMERIC
    column. *)
Record ConfigRow : Type := mkConfig {
  cfg_region_id : Z;
  is_active : bool;
  queries_per_day : Z;
  interval_hours : Q;
  last_queried_at : option Z;
  updated_at : option Z
}.

Record SegmentRow : Type := mkSegment {
  segment_id : Z;
  seg_region_id : Z;
  start_lat : string;
  start_lng : string;
  end_lat : string;
  end_lng : string;
  segment_distance_api : option value
}.

Record ObservationRow : Type := mkObservation {
  obs_segment_id : Z;
  obs_region_id : Z;
  observed_at : Z;
  freeflow_duration_seconds : value;
  current_duration_seconds : value
}.

Record QueryLogRow : Type := mkQueryLog {
  log_region_id : Z;
  elements_queried : Z;
  successful_queries : Z;
  failed_queries : Z;
  api_response_time_ms : Z
}.

Record DB : Type := mkDB {
  collection_config : list ConfigRow;
  regions : list RegionRow;
  road_segments : list SegmentRow;
  traffic_observations : list ObservationRow;
  query_log : list QueryLogRow
}.

(** The statements that change the database, and [Commit]. *)
Inductive stmt : Type :=
| UpdateSegmentDistance (distance : value) (seg_id : Z)
| InsertObservation (row : ObservationRow)
| InsertQueryLog (row : QueryLogRow)
| UpdateConfig (last_queried updated : Z) (rid : Z)
| Commit.

Definition set_distance (distance : value) (seg_id : Z) (s : SegmentRow)
  : SegmentRow :=
  if segment_id s =? seg_id
  then mkSegment (segment_id s) (seg_region_id s) (start_lat s) (start_lng s)
                 (end_lat s) (end_lng s) (Some distance)
  else s.

Definition set_last_queried (last_queried updated rid : Z) (c : ConfigRow)
  : ConfigRow :=
  if cfg_region_id c =? rid
  then mkConfig (cfg_region_id c) (is_active c) (queries_per_day c)
                (interval_hours c) (Some last_queried) (Some updated)
  else c.

Definition apply_stmt (db : DB) (s : stmt) : DB :=
  match s with
  | UpdateSegmentDistance d sid =>
      mkDB (collection_config db) (regions db)
           (map (set_distance d sid) (road_segments db))
           (traffic_observations db) (query_log db)
  | InsertObservation r =>
      mkDB (collection_config db) (regions db) (road_segments db)
           (traffic_observations db ++ [r]) (query_log db)
  | InsertQueryLog r =>
      mkDB (collection_config db) (regions db) (road_segments db)
           (traffic_observations db) (query_log db ++ [r])
  | UpdateConfig lq up rid =>
      mkDB (map (set_last_queried lq up rid) (collection_config db))
           (regions db) (road_segments db)
           (traffic_observations db) (query_log db)
  | Commit => db
  end.

Definition apply_stmts (db : DB) (ss : list stmt) : DB :=
  fold_left apply_stmt ss db.

(** ** The world the script runs in *)

(** What one HTTP GET to the Distance Matrix endpoint does: it takes
    [latency] microseconds and then fails on the network, times out, delivers
    a body that is not JSON, or delivers a JSON body. *)
Inductive http_result : Type :=
| ConnectionFailed
| TimedOut
| BodyNotJson
| Body (data : value).

Record http_outcome : Type := mkOutcome {
  latency : N;
  result : http_result
}.

(** A line written to standard output, with the values it interpolates. *)
Inductive line : Type :=
| LBanner
| LNoActiveRegion
| LActiveRegion (name : option string) (rid segments per_day : Z) (interval : Q)
| LLastQueried (last : Z) (hours_since : Q)
| LLastQueriedNever
| LSkipping (hours_since interval hours_remaining : Q)
| LIntervalPassed
| LCollecting (rid : Z)
| LQuerying (n : Z)
| LSegment (idx total seg_id : Z)
| LFailed
| LError (e : exn)
| LSaving (n : Z)
| LQuotaExceeded
| LElementQuotaExceeded
| LApiError (e : exn)
| LCollectionComplete (successful failed : Z)
| LSuccessRate (rate : float)
| LCollectionFailed (e : exn)
| LRule
| LMissingEnv (var : string).

(** [clock] is the UTC time in microseconds.  [api_script] lists what the
    coming HTTP requests will meet, [faults] which of the coming database
    calls fail ([true]: the call raises).  [pending] is the view of the open
    transaction, [committed] what a commit has made durable. *)
Record World : Type := mkWorld {
  clock : Z;
  api_script : list http_outcome;
  requests_sent : list (string * string);
  faults : list bool;
  committed : DB;
  pending : DB;
  sql_log : list stmt;
  stdout : list line
}.

(** ** Computations: state and exceptions *)

Definition M (A : Type) : Type := World -> res A * World.

Definition ret {A} (a : A) : M A := fun w => (Ok a, w).

Definition raise {A} (e : exn) : M A := fun w => (Raise e, w).

Definition bind {A B} (m : M A) (k : A -> M B) : M B :=
  fun w =>
    match m w with
    | (Ok a, w') => k a w'
    | (Raise e, w') => (Raise e, w')
    end.

Notation "x <- m ;; k" := (bind m (fun x => k))
  (at level 61, m at next level, right associativity).
Notation "m ;; k" := (bind m (fun _ => k))
  (at level 61, right associativity).

(** A value operation used inside a computation. *)
Definition lift {A} (r : res A) : M A := fun w => (r, w).

(** [try: m except Exception as e: h e]. *)
Definition try_except {A} (m : M A) (h : exn -> M A) : M A :=
  fun w =>
    match m w with
    | (Ok a, w') => (Ok a, w')
    | (Raise e, w') => h e w'
    end.

(** [try: m finally: f]. *)
Definition try_finally {A} (m : M A) (f : M unit) : M A :=
  fun w =>
    match m w with
    | (r, w') =>
        match f w' with
        | (Ok _, w'') => (r, w'')
        | (Raise e, w'') => (Raise e, w'')
        end
    end.

(** *** Primitive effects *)

Definition print (l : line) : M unit :=
  fun w => (Ok tt, mkWorld (clock w) (api_script w) (requests_sent w)
                           (faults w) (committed w) (pending w) (sql_log w)
                           (stdout w ++ [l])).

(** [datetime.utcnow()], in microseconds. *)
Definition utcnow : M Z := fun w => (Ok (clock w), w).

(** [time.time()] reads the same clock, as a double of seconds. *)
Definition time_time : M Q :=
  fun w => (Ok (Double.round (inject_Z (clock w) / inject_Z 1000000)), w).

Definition sleep (micros : Z) : M unit :=
  fun w => (Ok tt, mkWorld (clock w + micros) (api_script w) (requests_sent w)
                           (faults w) (committed w) (pending w) (sql_log w)
                           (stdout w)).

(** [requests.get(url, params, timeout=10)] followed by [response.json()]:
    the next outcome of the script is consumed; with none left the network is
    down. *)
Definition http_get_json (origin destination : string) : M value :=
  fun w =>
    let sent := requests_sent w ++ [(origin, destination)] in
    match api_script w with
    | [] =>
        (Raise ConnectionError,
         mkWorld (clock w) [] sent (faults w) (committed w) (pending w)
                 (sql_log w) (stdout w))
    | o :: rest =>
        let w' := mkWorld (clock w + Z.of_N (latency o)) rest sent (faults w)
                          (committed w) (pending w) (sql_log w) (stdout w) in
        match result o with
        | ConnectionFailed => (Raise ConnectionError, w')
        | TimedOut => (Raise Timeout, w')
        | BodyNotJson => (Raise JSONDecodeError, w')
        | Body data => (Ok data, w')
        end
    end.

(** Every call to the database consumes one entry of [faults]. *)
Definition db_call : M unit :=
  fun w =>
    match faults w with
    | [] => (Ok tt, w)
    | b :: fs =>
        let w' := mkWorld (clock w) (api_script w) (requests_sent w) fs
                          (committed w) (pending w) (sql_log w) (stdout w) in
        if b then (Raise DatabaseError, w') else (Ok tt, w')
    end.

(** [cursor.execute] / [executemany] / [execute_values] of writing
    statements: they act on the open transaction only. *)
Definition db_write (ss : list stmt) : M unit :=
  db_call ;;
  fun w => (Ok tt, mkWorld (clock w) (api_script w) (requests_sent w)
                           (faults w) (committed w)
                           (apply_stmts (pending w) ss)
                           (sql_log w ++ ss) (stdout w)).

(** [self.conn.commit()]. *)
Definition db_commit : M unit :=
  db_call ;;
  fun w => (Ok tt, mkWorld (clock w) (api_script w) (requests_sent w)
                           (faults w) (pending w) (pending w)
                           (sql_log w ++ [Commit]) (stdout w)).

(** A [SELECT], evaluated on the view of the open transaction. *)
Definition db_read {A} (q : DB -> A) : M A :=
  db_call ;;
  fun w => (Ok (q (pending w)), w).

(** ** The collector *)

Definition len {A} (l : list A) : Z := Z.of_nat (List.length l).

(** [timedelta.total_seconds()]: the microseconds divided by [10**6], as a
    double. *)
Definition total_seconds (micros : Z) : Q :=
  Double.round (inject_Z micros / inject_Z 1000000).

(** [(later - earlier).total_seconds() / 3600]: the difference of two
    [datetime]s is exact, each of the two divisions rounds to a double. *)
Definition hours_between (later earlier : Z) : Q :=
  Double.round (total_seconds (later - earlier) / inject_Z 3600).

(** [float(d)] for a value of a NUMERIC column. *)
Definition float_of_decimal (d : Q) : Q := Double.round d.

Definition should_query_now (last_queried_at : option Z) (interval_hours : Q)
  : M bool :=
  match last_queried_at with
  | None => ret true
  | Some last =>
      now <- utcnow ;;
      let time_since_last := hours_between now last in
      ret (Qle_bool interval_hours time_since_last)
  end.

(** The row [get_active_region] fetches. *)
Record ActiveRegion : Type := mkActive {
  act_region_id : Z;
  act_region_name : option string;
  act_queries_per_day : Z;
  act_interval_hours : Q;
  act_last_queried_at : option Z;
  act_segment_count : Z
}.

(** [collection_config JOIN regions ... WHERE is_active LIMIT 1].  Without
    an [ORDER BY] the row that [LIMIT 1] keeps is the database's choice; it
    is taken to be the first in the order of the tables.  What is proved
    about two successive queries assumes a single active row with a
    region. *)
Definition select_active_region (db : DB) : option ActiveRegion :=
  hd_error
    (flat_map
       (fun cc =>
          if is_active cc then
            map (fun r =>
                   mkActive (cfg_region_id cc) (region_name r)
                            (queries_per_day cc) (interval_hours cc)
                            (last_queried_at cc) (segment_count r))
                (filter (fun r => cfg_region_id cc =? region_id r) (regions db))
          else [])
       (collection_config db)).

Definition get_active_region : M (option ActiveRegion) :=
  db_read select_active_region.

(** The dict [_query_distance_matrix] returns. *)
Record TrafficData : Type := mkTraffic {
  distance : value;
  freeflow_duration : value;
  current_duration : value
}.

Definition _query_distance_matrix (origin destination : string)
  : M (option TrafficData) :=
  try_except
    (data <- http_get_json origin destination ;;
     status <- lift (getitem data "status") ;;
     if eq_str status "OVER_QUERY_LIMIT" then
       print LQuotaExceeded ;; ret None
     else
       status <- lift (getitem data "status") ;;
       if eq_str status "OK" then
         rows <- lift (getitem data "rows") ;;
         row <- lift (getitem0 rows) ;;
         elements <- lift (getitem row "elements") ;;
         element <- lift (getitem0 elements) ;;
         estatus <- lift (getitem element "status") ;;
         if eq_str estatus "OVER_QUERY_LIMIT" then
           print LElementQuotaExceeded ;; ret None
         else
           estatus <- lift (getitem element "status") ;;
           if eq_str estatus "OK" then
             d <- lift (get element "duration" (VDict [])) ;;
             duration <- lift (get d "value" VNone) ;;
             dt <- lift (get element "duration_in_traffic" (VDict [])) ;;
             duration_in_traffic <- lift (get dt "value" VNone) ;;
             ds <- lift (get element "distance" (VDict [])) ;;
             distance <- lift (get ds "value" VNone) ;;
             if truthy duration && truthy distance then
               let current_duration :=
                 if truthy duration_in_traffic then duration_in_traffic
                 else duration in
               delay <- lift (sub current_duration duration) ;;
               q <- lift (truediv distance duration) ;;
               let freeflow_speed := mul_float q (36 # 10) in
               q' <- lift (truediv distance current_duration) ;;
               let current_speed := mul_float q' (36 # 10) in
               ret (Some (mkTraffic distance duration current_duration))
             else ret None
           else ret None
       else ret None)
    (fun e => print (LApiError e) ;; ret None).

(** The local variables of the loop in [collect_traffic_data]. *)
Record Tally : Type := mkTally {
  observations : list ObservationRow;
  segment_updates : list (value * Z);
  successful : Z;
  failed : Z
}.

(** One iteration.  Nothing that follows the update of the counters can
    raise, so the handler always resumes from the tally the iteration
    started with. *)
Definition query_segment (region_id timestamp total : Z)
  (idx : Z) (seg : SegmentRow) (t : Tally) : M Tally :=
  try_except
    (print (LSegment (idx + 1) total (segment_id seg)) ;;
     traffic_data <- _query_distance_matrix
                       (start_lat seg ++ "," ++ start_lng seg)
                       (end_lat seg ++ "," ++ end_lng seg) ;;
     t' <- match traffic_data with
           | Some td =>
               ret (mkTally
                      (observations t ++
                         [mkObservation (segment_id seg) region_id timestamp
                                        (freeflow_duration td)
                                        (current_duration td)])
                      (segment_updates t ++ [(distance td, segment_id seg)])
                      (successful t + 1)
                      (failed t))
           | None =>
               print LFailed ;;
               ret (mkTally (observations t) (segment_updates t)
                            (successful t) (failed t + 1))
           end ;;
     sleep 200000 ;;
     ret t')
    (fun e =>
       print (LError e) ;;
       ret (mkTally (observations t) (segment_updates t)
                    (successful t) (failed t + 1))).

(** [for idx, x in enumerate(xs)], threading the loop's variables. *)
Fixpoint for_each {A S} (body : Z -> A -> S -> M S)
  (idx : Z) (xs : list A) (st : S) : M S :=
  match xs with
  | [] => ret st
  | x :: xs' => st' <- body idx x st ;; for_each body (idx + 1) xs' st'
  end.

Definition select_segments (region_id : Z) (db : DB) : list SegmentRow :=
  filter (fun s => seg_region_id s =? region_id) (road_segments db).

Definition nonempty {A} (l : list A) : bool :=
  match l with [] => false | _ => true end.

Definition collect_traffic_data (region_id : Z) : M (Z * Z) :=
  print (LCollecting region_id) ;;
  segments <- db_read (select_segments region_id) ;;
  print (LQuerying (len segments)) ;;
  timestamp <- utcnow ;;
  start_time <- time_time ;;
  t <- for_each (query_segment region_id timestamp (len segments))
                0 segments (mkTally [] [] 0 0) ;;
  end_time <- time_time ;;
  let elapsed_time :=
    Double.truncate
      (Double.round
         (Double.round (end_time - start_time)%Q * inject_Z 1000)%Q) in
  (if nonempty (segment_updates t)
   then db_write (map (fun u => UpdateSegmentDistance (fst u) (snd u))
                      (segment_updates t))
   else ret tt) ;;
  (if nonempty (observations t)
   then print (LSaving (len (observations t))) ;;
        db_write (map InsertObservation (observations t))
   else ret tt) ;;
  db_write [InsertQueryLog
              (mkQueryLog region_id (len segments) (successful t) (failed t)
                          elapsed_time)] ;;
  db_commit ;;
  ret (successful t, failed t).

(** [successful / (successful + failed) * 100]. *)
Definition success_rate (successful failed : Z) : res float :=
  match truediv (VInt successful) (VInt (successful + failed)) with
  | Ok q => Ok (mul_float q (inject_Z 100))
  | Raise e => Raise e
  end.

Definition run : M unit :=
  print LBanner ;;
  active <- get_active_region ;;
  match active with
  | None => print LNoActiveRegion ;; ret tt
  | Some a =>
      let region_id := act_region_id a in
      let interval_hours := act_interval_hours a in
      let last_queried := act_last_queried_at a in
      print (LActiveRegion (act_region_name a) region_id (act_segment_count a)
                           (act_queries_per_day a)
                           (float_of_decimal interval_hours)) ;;
      match last_queried with
      | Some last =>
          now <- utcnow ;;
          print (LLastQueried last (hours_between now last))
      | None => print LLastQueriedNever
      end ;;
      due <- should_query_now last_queried (float_of_decimal interval_hours) ;;
      if negb due then
        match last_queried with
        | Some last =>
            now <- utcnow ;;
            let hours_since := hours_between now last in
            let hours_remaining :=
              Double.round (float_of_decimal interval_hours - hours_since)%Q in
            print (LSkipping hours_since (float_of_decimal interval_hours)
                             hours_remaining) ;;
            print LRule ;;
            ret tt
        | None => raise TypeError
        end
      else
        print LIntervalPassed ;;
        try_finally
          (try_except
             (sf <- collect_traffic_data region_id ;;
              let successful := fst sf in
              let failed := snd sf in
              last <- utcnow ;;
              updated <- utcnow ;;
              db_write [UpdateConfig last updated region_id] ;;
              db_commit ;;
              print (LCollectionComplete successful failed) ;;
              rate <- lift (success_rate successful failed) ;;
              print (LSuccessRate rate))
             (fun e => print (LCollectionFailed e) ;; raise e))
          (print LRule)
  end.

(** The script's entry point: the exit status of the process and the world
    it leaves.  An empty variable counts as unset; an exception that reaches
    the top level ends the process with status 1. *)
Definition main (db_connection google_api_key : option string)
  : World -> Z * World :=
  fun w =>
    match db_connection with
    | None | Some ""%string =>
        (1, snd (print (LMissingEnv "DB_CONNECTION_STRING") w))
    | Some _ =>
        match google_api_key with
        | None | Some ""%string =>
            (1, snd (print (LMissingEnv "GOOGLE_API_KEY") w))
        | Some _ =>
            match (db_call ;; run) w with
            | (Ok _, w') => (0, w')
            | (Raise _, w') => (1, w')
            end
        end
    end.

(** ** Vocabulary of the properties, and sample data *)

(** *** Idle worlds *)

(** Six hours in microseconds, for the examples. *)
Definition six_hours : Z := 6 * 3600 * 1000000.

Definition empty_db : DB := mkDB [] [] [] [] [].

Definition idle_world (now : Z) : World :=
  mkWorld now [] [] [] empty_db empty_db [] [].

(** *** Bodies and what the client makes of them *)

(** The first element of the first row of a body, when the subscripts
    [data['rows'][0]['elements'][0]['status']] can all be taken. *)
Definition has_first_element (df ef : list (string * value)) : Prop :=
  exists rf rows_rest els_rest,
    lookup "rows" df = Some (VList (VDict rf :: rows_rest)) /\
    lookup "elements" rf = Some (VList (VDict ef :: els_rest)).

(** [element.get(k, {}).get('value')]: [None] when the second [get] has no
    dict to work on. *)
Definition nested_value (ef : list (string * value)) (k : string)
  : option value :=
  match lookup k ef with
  | None => Some VNone
  | Some (VDict d) =>
      Some (match lookup "value" d with Some x => x | None => VNone end)
  | Some _ => None
  end.

(** A number other than zero: an int or a bool other than [0] and [False],
    or a float other than [0.0] (an infinity and not-a-number are not
    zero). *)
Definition nonzero_number (v : value) (n : number) : Prop :=
  as_number v = Some n /\ is_zero n = false.

(** The difference of two numbers can be taken: an int that meets a float
    has a double. *)
Definition difference_fits (a b : number) : bool :=
  match a, b with
  | NInt _, NInt _ => true
  | NInt x, NFloat _ | NFloat _, NInt x => negb (too_big x)
  | NFloat _, NFloat _ => true
  end.

(** The quotient of two numbers can be taken, the divisor not being zero:
    the quotient of two ints fits a double, an int that meets a float has a
    double. *)
Definition quotient_fits (a b : number) : bool :=
  match a, b with
  | NInt x, NInt y => negb (float_overflow x y)
  | NInt x, NFloat _ | NFloat _, NInt x => negb (too_big x)
  | NFloat _, NFloat _ => true
  end.

(** The values the client accepts: duration and distance are non-zero
    numbers, the traffic duration is falsy or a number, and the delay and
    both speeds can be computed. *)
Definition accepted (dur dit dist : value) : Prop :=
  exists ndur ndist ncur,
    nonzero_number dur ndur /\
    nonzero_number dist ndist /\
    as_number (if truthy dit then dit else dur) = Some ncur /\
    difference_fits ncur ndur = true /\
    quotient_fits ndist ndur = true /\
    quotient_fits ndist ncur = true.

(** A body the client turns into [td]. *)
Definition yields (r : http_result) (td : TrafficData) : Prop :=
  exists df ef dur dit dist,
    r = Body (VDict df) /\
    lookup "status" df = Some (VStr "OK") /\
    has_first_element df ef /\
    lookup "status" ef = Some (VStr "OK") /\
    nested_value ef "duration" = Some dur /\
    nested_value ef "duration_in_traffic" = Some dit /\
    nested_value ef "distance" = Some dist /\
    accepted dur dit dist /\
    td = mkTraffic dist dur (if truthy dit then dit else dur).

(** What the next request will meet. *)
Definition next_result (w : World) : http_result :=
  match api_script w with
  | [] => ConnectionFailed
  | o :: _ => result o
  end.

Definition next_latency (w : World) : Z :=
  match api_script w with
  | [] => 0
  | o :: _ => Z.of_N (latency o)
  end.

(** The exception a request raises before any body is parsed. *)
Definition transport_error (r : http_result) : option exn :=
  match r with
  | ConnectionFailed => Some ConnectionError
  | TimedOut => Some Timeout
  | BodyNotJson => Some JSONDecodeError
  | Body _ => None
  end.

(** A body that reports the quota as exhausted, at the top level or in its
    first element. *)
Definition over_query_limit (r : http_result) : Prop :=
  exists df,
    r = Body (VDict df) /\
    (lookup "status" df = Some (VStr "OVER_QUERY_LIMIT") \/
     lookup "status" df = Some (VStr "OK") /\
     exists ef, has_first_element df ef /\
                lookup "status" ef = Some (VStr "OVER_QUERY_LIMIT")).

(** *** Sample bodies *)

Definition field (k : string) (v : value) : string * value := (k, v).

(** [{"text": ..., "value": z}]. *)
Definition measure (z : Z) : value :=
  VDict [field "text" (VStr ""); field "value" (VInt z)].

(** A body with status [OK] holding the one element. *)
Definition ok_body (element : list (string * value)) : value :=
  VDict [field "destination_addresses" (VList []);
         field "origin_addresses" (VList []);
         field "rows"
               (VList [VDict [field "elements" (VList [VDict element])]]);
         field "status" (VStr "OK")].

Definition element_without_traffic (dist dur : Z) : list (string * value) :=
  [field "distance" (measure dist); field "duration" (measure dur);
   field "status" (VStr "OK")].

Definition element_with_traffic (dist dur dit : Z) : list (string * value) :=
  [field "distance" (measure dist); field "duration" (measure dur);
   field "duration_in_traffic" (measure dit); field "status" (VStr "OK")].

(** A world whose next requests meet the given bodies, each after 50 ms. *)
Definition answering (bodies : list value) : World :=
  mkWorld 0 (map (fun b => mkOutcome 50000 (Body b)) bodies) [] []
          empty_db empty_db [] [].

(** The key [k] of the element holds a dict with a [value]. *)
Definition value_present (ef : list (string * value)) (k : string) : Prop :=
  exists d v, lookup k ef = Some (VDict d) /\ lookup "value" d = Some v.

(** *** The loop and the write phase *)

(** What [time.time()] returns when the clock shows [micros]. *)
Definition time_at (micros : Z) : Q :=
  Double.round (inject_Z micros / inject_Z 1000000).

(** The milliseconds logged for a loop that starts and ends at the given
    clock readings. *)
Definition elapsed_ms (start finish : Z) : Z :=
  Double.truncate
    (Double.round (Double.round (time_at finish - time_at start)%Q
                   * inject_Z 1000)%Q).

Definition origin_of (seg : SegmentRow) : string :=
  start_lat seg ++ "," ++ start_lng seg.

Definition destination_of (seg : SegmentRow) : string :=
  end_lat seg ++ "," ++ end_lng seg.

(** The tally after a segment whose query returned [r]. *)
Definition tally_after (region_id timestamp : Z) (seg : SegmentRow)
  (t : Tally) (r : option TrafficData) : Tally :=
  match r with
  | Some td =>
      mkTally (observations t ++
                 [mkObservation (segment_id seg) region_id timestamp
                                (freeflow_duration td) (current_duration td)])
              (segment_updates t ++ [(distance td, segment_id seg)])
              (successful t + 1) (failed t)
  | None =>
      mkTally (observations t) (segment_updates t) (successful t)
              (failed t + 1)
  end.

(** How the tally moves over [n] segments queried at [timestamp]. *)
Definition progress (region_id timestamp n : Z) (t t' : Tally) : Prop :=
  exists new_obs new_upd,
    observations t' = observations t ++ new_obs /\
    segment_updates t' = segment_updates t ++ new_upd /\
    len new_obs = successful t' - successful t /\
    len new_upd = successful t' - successful t /\
    0 <= successful t' - successful t /\
    0 <= failed t' - failed t /\
    (successful t' - successful t) + (failed t' - failed t) = n /\
    Forall (fun r => observed_at r = timestamp /\ obs_region_id r = region_id)
           new_obs.

(** How the world moves over [n] segments: one request and one pause of
    200 ms each, and no access to the database. *)
Definition passed (n : Z) (w w' : World) : Prop :=
  faults w' = faults w /\
  committed w' = committed w /\
  pending w' = pending w /\
  sql_log w' = sql_log w /\
  len (requests_sent w') = len (requests_sent w) + n /\
  clock w + 200000 * n <= clock w'.

(** The statements a run issues before it commits. *)
Definition run_statements (region_id n : Z) (t : Tally) (elapsed : Z)
  : list stmt :=
  map (fun u => UpdateSegmentDistance (fst u) (snd u)) (segment_updates t)
  ++ map InsertObservation (observations t)
  ++ [InsertQueryLog
        (mkQueryLog region_id n (successful t) (failed t) elapsed)].

(** The part of [collect_traffic_data] that follows the loop. *)
Definition save_results (region_id n : Z) (t : Tally) (elapsed_time : Z)
  : M (Z * Z) :=
  (if nonempty (segment_updates t)
   then db_write (map (fun u => UpdateSegmentDistance (fst u) (snd u))
                      (segment_updates t))
   else ret tt) ;;
  (if nonempty (observations t)
   then print (LSaving (len (observations t))) ;;
        db_write (map InsertObservation (observations t))
   else ret tt) ;;
  db_write [InsertQueryLog
              (mkQueryLog region_id n (successful t) (failed t)
                          elapsed_time)] ;;
  db_commit ;;
  ret (successful t, failed t).

(** *** What a list of statements inserts and updates *)

Definition inserted_observations (ss : list stmt) : list ObservationRow :=
  flat_map (fun s => match s with InsertObservation r => [r] | _ => [] end) ss.

Definition inserted_logs (ss : list stmt) : list QueryLogRow :=
  flat_map (fun s => match s with InsertQueryLog r => [r] | _ => [] end) ss.

Definition distance_updates (ss : list stmt) : list (value * Z) :=
  flat_map (fun s => match s with
                     | UpdateSegmentDistance d i => [(d, i)]
                     | _ => []
                     end) ss.

(** *** A sample region *)

Definition quota_body : value :=
  VDict [field "error_message" (VStr "You have exceeded your daily quota.");
         field "rows" (VList []);
         field "status" (VStr "OVER_QUERY_LIMIT")].

Definition sample_segment (id rid : Z) : SegmentRow :=
  mkSegment id rid "12.9716" "77.5946" "12.9352" "77.6245" None.

(** Region 7 is active, was never queried and has three segments. *)
Definition sample_db : DB :=
  mkDB [mkConfig 7 true 24 1 None None]
       [mkRegion 7 (Some "Downtown"%string) 3]
       [sample_segment 1 7; sample_segment 2 7; sample_segment 9 8;
        sample_segment 3 7]
       [] [].

Definition sample_start : Z := 1700000000000000.

(** The second of the three requests meets an exhausted quota. *)
Definition sample_world : World :=
  mkWorld sample_start
          (map (fun b => mkOutcome 50000 (Body b))
               [ok_body (element_with_traffic 5000 600 900);
                quota_body;
                ok_body (element_without_traffic 1200 90)])
          [] [] sample_db sample_db [] [].

Definition quota_world : World :=
  mkWorld sample_start [mkOutcome 50000 (Body quota_body)] [] []
          sample_db sample_db [] [].

(** *** The orchestrator *)

(** The gate's answer for the active region at time [now]. *)
Definition due (a : ActiveRegion) (now : Z) : bool :=
  match act_last_queried_at a with
  | None => true
  | Some last =>
      Qle_bool (float_of_decimal (act_interval_hours a))
               (hours_between now last)
  end.

(** The [try ... except ... finally] block of [run]. *)
Definition collection_block (a : ActiveRegion) : M unit :=
  try_finally
    (try_except
       (sf <- collect_traffic_data (act_region_id a) ;;
        last <- utcnow ;;
        updated <- utcnow ;;
        db_write [UpdateConfig last updated (act_region_id a)] ;;
        db_commit ;;
        print (LCollectionComplete (fst sf) (snd sf)) ;;
        rate <- lift (success_rate (fst sf) (snd sf)) ;;
        print (LSuccessRate rate))
       (fun e => print (LCollectionFailed e) ;; raise e))
    (print LRule).

(** The world once [run] has read the active region and printed [out]. *)
Definition after_read (w : World) (out : list line) : World :=
  mkWorld (clock w) (api_script w) (requests_sent w) (tl (faults w))
          (committed w) (pending w) (sql_log w) (stdout w ++ out).

(** The world once the connection is open. *)
Definition connected (w : World) : World :=
  mkWorld (clock w) (api_script w) (requests_sent w) (tl (faults w))
          (committed w) (pending w) (sql_log w) (stdout w).

(** *** Further sample worlds *)

(** Region 7 was queried half an hour before [sample_start]; its interval is
    one hour. *)
Definition recently_queried_world : World :=
  let db := mkDB [mkConfig 7 true 24 1 (Some (sample_start - 1800000000)) None]
                 (regions sample_db) (road_segments sample_db) [] [] in
  mkWorld sample_start (api_script sample_world) [] [] db db [] [].

Definition sample_active : ActiveRegion :=
  mkActive 7 (Some "Downtown"%string) 24 1 None 3.

(** Region 5 is active and was never queried, but has no segments. *)
Definition empty_region_world : World :=
  let db := mkDB [mkConfig 5 true 24 1 None None]
                 [mkRegion 5 None 0] (road_segments sample_db) [] [] in
  mkWorld sample_start [] [] [] db db [] [].

(** The commit of the sample run fails: the seventh call to the database. *)
Definition failing_commit_world : World :=
  mkWorld sample_start (api_script sample_world) []
          [false; false; false; false; false; false; true]
          sample_db sample_db [] [].

(** *** Vocabulary of the further properties *)

(** The columns of a configuration row the script never writes. *)
Definition config_fixed (c : ConfigRow) : Z * bool * Z * Q :=
  (cfg_region_id c, is_active c, queries_per_day c, interval_hours c).

(** The columns of a segment the script never writes. *)
Definition segment_fixed (s : SegmentRow)
  : Z * Z * string * string * string * string :=
  (segment_id s, seg_region_id s, start_lat s, start_lng s, end_lat s,
   end_lng s).

(** [db'] is [db] after statements of the script: regions untouched, no row
    of the other tables removed, observations and log rows only appended and
    never altered, and only [last_queried_at], [updated_at] and
    [segment_distance_api] rewritten. *)
Definition grows (db db' : DB) : Prop :=
  regions db' = regions db /\
  map config_fixed (collection_config db')
  = map config_fixed (collection_config db) /\
  map segment_fixed (road_segments db')
  = map segment_fixed (road_segments db) /\
  (exists more, traffic_observations db' = traffic_observations db ++ more) /\
  (exists more, query_log db' = query_log db ++ more).

(** Both the durable state and the open transaction descend from [base]. *)
Definition descends (base : DB) (w : World) : Prop :=
  grows base (committed w) /\ grows base (pending w).

(** A computation that keeps the database a descendant of where it started,
    whatever it returns or raises. *)
Definition keeps {A} (m : M A) : Prop :=
  forall base w, descends base w -> descends base (snd (m w)).

(** The two strings sent for a segment. *)
Definition endpoints (seg : SegmentRow) : string * string :=
  (origin_of seg, destination_of seg).

(** The tally after the segments of [l], each with what its query returned. *)
Definition tally_over (region_id timestamp : Z)
  (l : list (SegmentRow * option TrafficData)) (t : Tally) : Tally :=
  fold_left (fun t sr => tally_after region_id timestamp (fst sr) t (snd sr))
            l t.

(** The observation rows for the segments of [l] that got data. *)
Definition rows_of (region_id timestamp : Z)
  (l : list (SegmentRow * option TrafficData)) : list ObservationRow :=
  flat_map (fun sr =>
              match snd sr with
              | Some td =>
                  [mkObservation (segment_id (fst sr)) region_id timestamp
                                 (freeflow_duration td) (current_duration td)]
              | None => []
              end) l.

(** The distance updates for the segments of [l] that got data. *)
Definition updates_of (l : list (SegmentRow * option TrafficData))
  : list (value * Z) :=
  flat_map (fun sr =>
              match snd sr with
              | Some td => [(distance td, segment_id (fst sr))]
              | None => []
              end) l.

(** What the client returns when its request meets [r]: the outcome of
    [_query_distance_matrix] in a world whose next request meets [r]. *)
Definition answer (r : http_result) : option TrafficData :=
  match fst (_query_distance_matrix
               "" "" (mkWorld 0 [mkOutcome 0 r] [] [] empty_db empty_db [] []))
  with
  | Ok data => data
  | Raise _ => None
  end.

(** What the client returns for the next [n] requests, one outcome of the
    script each; past the end of the script the network is down. *)
Fixpoint answers (n : nat) (script : list http_outcome)
  : list (option TrafficData) :=
  match n with
  | O => []
  | S n' =>
      answer (match script with [] => ConnectionFailed | o :: _ => result o end)
      :: answers n' (tl script)
  end.


(** Data that some body yields. *)
Definition from_a_body (r : option TrafficData) : Prop :=
  forall td, r = Some td -> exists body, yields body td.

(** [l] is [l'] with some elements left out. *)
Inductive subseq {A} : list A -> list A -> Prop :=
| subseq_nil : subseq [] []
| subseq_skip x l l' : subseq l l' -> subseq l (x :: l')
| subseq_take x l l' : subseq l l' -> subseq (x :: l) (x :: l').

(** A number other than zero. *)
Definition nonzero (v : value) : Prop := exists n, nonzero_number v n.

(** No active configuration row has a region to join with. *)
Definition no_active_region (db : DB) : Prop :=
  forall cc r,
    In cc (collection_config db) -> In r (regions db) ->
    is_active cc = true -> cfg_region_id cc <> region_id r.

(** [a] is an active configuration row joined with its region. *)
Definition joined_active_row (db : DB) (a : ActiveRegion) : Prop :=
  exists cc r,
    In cc (collection_config db) /\ In r (regions db) /\
    is_active cc = true /\ region_id r = cfg_region_id cc /\
    a = mkActive (cfg_region_id cc) (region_name r) (queries_per_day cc)
                 (interval_hours cc) (last_queried_at cc) (segment_count r).

(** The [UPDATE] of [collection_config] is the sixth call of the sample
    collection, and fails. *)
Definition failing_update_world : World :=
  mkWorld sample_start (api_script sample_world) []
          [false; false; false; false; false; true]
          sample_db sample_db [] [].

(** The same world at another time. *)
Definition at_time (now : Z) (w : World) : World :=
  mkWorld now (api_script w) (requests_sent w) (faults w) (committed w)
          (pending w) (sql_log w) (stdout w).

(** A variable that is unset or empty. *)
Definition missing (v : option string) : Prop :=
  v = None \/ v = Some EmptyString.

(** The distance of the last update for segment [i], if any. *)
Fixpoint last_distance (i : Z) (upd : list (value * Z)) : option value :=
  match upd with
  | [] => None
  | (d, j) :: rest =>
      match last_distance i rest with
      | Some d' => Some d'
      | None => if j =? i then Some d else None
      end
  end.

(** A segment row once the updates [upd] are applied. *)
Definition with_distance (upd : list (value * Z)) (s : SegmentRow)
  : SegmentRow :=
  match last_distance (segment_id s) upd with
  | Some d =>
      mkSegment (segment_id s) (seg_region_id s) (start_lat s) (start_lng s)
                (end_lat s) (end_lng s) (Some d)
  | None => s
  end.



(** The database cannot be reached. *)
Definition unreachable_world : World :=
  mkWorld sample_start (api_script sample_world) [] [true]
          sample_db sample_db [] [].

(** ** Properties *)

(** *** Rounding to a double *)

Module DoubleFacts.
Import Double.

Lemma pow2_pos e : (0 < pow2 e)%Q.
Proof. apply Qpower_0_lt. reflexivity. Qed.

Lemma pow2_add a b : (pow2 (a + b) == pow2 a * pow2 b)%Q.
Proof. apply Qpower_plus. discriminate. Qed.

Lemma pow2_le a b : a <= b -> (pow2 a <= pow2 b)%Q.
Proof. intros H. apply Qpower_le_compat_l; [exact H | discriminate]. Qed.

Lemma pow2_lt_inv a b : (pow2 a < pow2 b)%Q -> a < b.
Proof. intros H. apply (Qpower_lt_compat_l_inv 2); [exact H | reflexivity]. Qed.

Lemma pow2_Z e : 0 <= e -> (pow2 e == inject_Z (2 ^ e))%Q.
Proof. intros H. unfold pow2. now rewrite Zpower_Qpower. Qed.

Lemma pow2_cancel e : (pow2 e * pow2 (- e) == 1)%Q.
Proof. rewrite <- pow2_add, Z.add_opp_diag_r. reflexivity. Qed.

(** [ilog2 x] is the binade of a positive [x]. *)
Lemma ilog2_spec x :
  (0 < x)%Q -> (pow2 (ilog2 x) <= x /\ x < pow2 (ilog2 x + 1))%Q.
Proof.
  intros Hx. destruct x as [n d].
  assert (Hn : 0 < n) by (unfold Qlt in Hx; simpl in Hx; lia).
  unfold ilog2. cbn [Qnum Qden].
  set (a := Z.log2 n). set (b := Z.log2 (Z.pos d)).
  destruct (Z.log2_spec n Hn) as [Ha1 Ha2]. fold a in Ha1, Ha2.
  destruct (Z.log2_spec (Z.pos d) (Pos2Z.is_pos d)) as [Hb1 Hb2].
  fold b in Hb1, Hb2.
  assert (Ha0 : 0 <= a) by apply Z.log2_nonneg.
  assert (Hb0 : 0 <= b) by apply Z.log2_nonneg.
  assert (Hxd : ((n # d) * inject_Z (Z.pos d) == inject_Z n)%Q).
  { unfold Qeq, Qmult, inject_Z. simpl. rewrite Pos.mul_1_r. ring. }
  assert (Hlow : (pow2 (a - b - 1) <= n # d)%Q).
  { apply (Qmult_le_r _ _ (pow2 (b + 1))); [apply pow2_pos |].
    rewrite <- pow2_add. replace (a - b - 1 + (b + 1)) with a by ring.
    rewrite !pow2_Z by lia.
    apply Qle_trans with (inject_Z n); [rewrite <- Zle_Qle; exact Ha1 |].
    rewrite <- Hxd. apply Qmult_le_l; [exact Hx |].
    rewrite <- Zle_Qle. lia. }
  assert (Hhigh : (n # d < pow2 (a - b + 1))%Q).
  { apply (Qmult_lt_r _ _ (pow2 b)); [apply pow2_pos |].
    rewrite <- pow2_add. replace (a - b + 1 + b) with (a + 1) by ring.
    rewrite !pow2_Z by lia.
    apply Qle_lt_trans with (inject_Z n).
    - rewrite <- Hxd. apply Qmult_le_l; [exact Hx |].
      rewrite <- Zle_Qle. exact Hb1.
    - rewrite <- Zlt_Qlt. replace (a + 1) with (Z.succ a) by ring. exact Ha2. }
  destruct (Qle_bool (pow2 (a - b)) (n # d)) eqn:E.
  - apply Qle_bool_iff in E. split; assumption.
  - split; [exact Hlow |].
    replace (a - b - 1 + 1) with (a - b) by ring.
    apply Qnot_le_lt. intros H. apply Qle_bool_iff in H. congruence.
Qed.

Lemma ilog2_mono x y : (0 < x)%Q -> (x <= y)%Q -> ilog2 x <= ilog2 y.
Proof.
  intros Hx Hxy.
  assert (Hy : (0 < y)%Q) by (eapply Qlt_le_trans; eassumption).
  destruct (ilog2_spec x Hx) as [H1 _]. destruct (ilog2_spec y Hy) as [_ H2].
  assert (H : (pow2 (ilog2 x) < pow2 (ilog2 y + 1))%Q).
  { eapply Qle_lt_trans; [exact H1 |]. eapply Qle_lt_trans; eassumption. }
  apply pow2_lt_inv in H. lia.
Qed.

Lemma rne_bounds x : Qfloor x <= rne x <= Qfloor x + 1.
Proof.
  unfold rne. destruct (x - inject_Z (Qfloor x) ?= 1 # 2)%Q; try lia.
  destruct (Z.even (Qfloor x)); lia.
Qed.

Lemma rne_mono x y : (x <= y)%Q -> rne x <= rne y.
Proof.
  intros H. pose proof (Qfloor_resp_le x y H) as Hf.
  pose proof (rne_bounds x) as Bx. pose proof (rne_bounds y) as By.
  destruct (Z.eq_dec (Qfloor x) (Qfloor y)) as [E | E]; [| lia].
  unfold rne in *. rewrite <- E in *. clear E Hf.
  set (f := Qfloor x) in *.
  destruct (Qcompare_spec (x - inject_Z f) (1 # 2)) as [Ex | Ex | Ex];
    destruct (Qcompare_spec (y - inject_Z f) (1 # 2)) as [Ey | Ey | Ey];
    try lia; try (destruct (Z.even f); lia); exfalso; lra.
Qed.

Lemma rne_Z z : rne (inject_Z z) = z.
Proof.
  unfold rne. rewrite Qfloor_Z.
  replace (inject_Z z - inject_Z z ?= 1 # 2)%Q with Lt; [reflexivity |].
  symmetry. apply Qlt_alt. unfold Qminus. rewrite Qplus_opp_r. reflexivity.
Qed.

Lemma rne_eq x y : (x == y)%Q -> rne x = rne y.
Proof.
  intros H. apply Z.le_antisymm; apply rne_mono; rewrite H; apply Qle_refl.
Qed.

(** The exponent [round_pos] works at, and the place of [x] below the next
    binade. *)
Lemma exponent_spec x :
  (0 < x)%Q ->
  let e := Z.max (ilog2 x) (-1022) in
  (x < pow2 (e + 1))%Q /\ (ilog2 x = e -> pow2 e <= x)%Q.
Proof.
  intros Hx e. destruct (ilog2_spec x Hx) as [H1 H2]. split.
  - eapply Qlt_le_trans; [exact H2 |]. apply pow2_le. lia.
  - intros <-. exact H1.
Qed.

Lemma round_pos_nonneg x : (0 < x)%Q -> (0 <= round_pos x)%Q.
Proof.
  intros Hx. unfold round_pos.
  apply Qmult_le_0_compat; [| apply Qlt_le_weak, pow2_pos].
  change 0%Q with (inject_Z 0). rewrite <- Zle_Qle.
  etransitivity; [| apply rne_bounds].
  change 0 with (Qfloor 0). apply Qfloor_resp_le.
  apply Qmult_le_0_compat; apply Qlt_le_weak; [exact Hx | apply pow2_pos].
Qed.

Lemma round_pos_upper x :
  (0 < x)%Q -> (round_pos x <= pow2 (Z.max (ilog2 x) (-1022) + 1))%Q.
Proof.
  intros Hx. unfold round_pos. set (e := Z.max (ilog2 x) (-1022)).
  destruct (exponent_spec x Hx) as [Hlt _]. fold e in Hlt.
  assert (Hs : (x * pow2 (52 - e) <= inject_Z (2 ^ 53))%Q).
  { rewrite <- (pow2_Z 53) by lia. replace 53 with (e + 1 + (52 - e)) by ring.
    rewrite pow2_add. apply Qmult_le_r; [apply pow2_pos |].
    now apply Qlt_le_weak. }
  apply rne_mono in Hs. rewrite rne_Z in Hs.
  replace (e + 1) with (53 + (e - 52)) by ring. rewrite pow2_add.
  apply Qmult_le_r; [apply pow2_pos |].
  rewrite (pow2_Z 53) by lia. now rewrite <- Zle_Qle.
Qed.

Lemma round_pos_lower x :
  (0 < x)%Q -> -1022 <= ilog2 x -> (pow2 (ilog2 x) <= round_pos x)%Q.
Proof.
  intros Hx He. unfold round_pos. rewrite Z.max_l by exact He.
  set (e := ilog2 x). destruct (ilog2_spec x Hx) as [Hle _]. fold e in Hle.
  assert (Hs : (inject_Z (2 ^ 52) <= x * pow2 (52 - e))%Q).
  { rewrite <- (pow2_Z 52) by lia. replace 52 with (e + (52 - e)) at 1 by ring.
    rewrite pow2_add. apply Qmult_le_r; [apply pow2_pos | exact Hle]. }
  apply rne_mono in Hs. rewrite rne_Z in Hs.
  replace e with (52 + (e - 52)) at 1 by ring. rewrite pow2_add.
  apply Qmult_le_r; [apply pow2_pos |].
  rewrite (pow2_Z 52) by lia. now rewrite <- Zle_Qle.
Qed.

Lemma round_pos_mono x y :
  (0 < x)%Q -> (x <= y)%Q -> (round_pos x <= round_pos y)%Q.
Proof.
  intros Hx Hxy.
  assert (Hy : (0 < y)%Q) by (eapply Qlt_le_trans; eassumption).
  pose proof (ilog2_mono x y Hx Hxy) as He.
  destruct (Z.eq_dec (Z.max (ilog2 x) (-1022)) (Z.max (ilog2 y) (-1022)))
    as [E | E].
  - unfold round_pos. rewrite <- E.
    apply Qmult_le_r; [apply pow2_pos |].
    rewrite <- Zle_Qle. apply rne_mono.
    apply Qmult_le_r; [apply pow2_pos | exact Hxy].
  - assert (Hy' : -1022 <= ilog2 y) by lia.
    eapply Qle_trans; [apply round_pos_upper; exact Hx |].
    eapply Qle_trans; [| apply round_pos_lower; assumption].
    apply pow2_le. lia.
Qed.

Lemma clamp_mono x y : (x <= y)%Q -> (clamp x <= clamp y)%Q.
Proof.
  intros H. unfold clamp.
  destruct (Qle_bool infinity x) eqn:Ex; destruct (Qle_bool infinity y) eqn:Ey.
  - apply Qle_refl.
  - apply Qle_bool_iff in Ex. exfalso.
    assert (Hy : (infinity <= y)%Q) by (eapply Qle_trans; eassumption).
    apply Qle_bool_iff in Hy. congruence.
  - apply Qlt_le_weak, Qnot_le_lt. intros Hx. apply Qle_bool_iff in Hx.
    congruence.
  - exact H.
Qed.

Lemma clamp_nonneg x : (0 <= x)%Q -> (0 <= clamp x)%Q.
Proof.
  intros H. unfold clamp. destruct (Qle_bool infinity x); [| exact H].
  apply Qlt_le_weak, pow2_pos.
Qed.

(** Rounding to a double keeps the order. *)
Theorem round_mono x y : (x <= y)%Q -> (round x <= round y)%Q.
Proof.
  intros H. unfold round.
  destruct (Qcompare_spec x 0) as [Ex | Ex | Ex];
    destruct (Qcompare_spec y 0) as [Ey | Ey | Ey]; try (exfalso; lra).
  - apply Qle_refl.
  - apply clamp_nonneg, round_pos_nonneg, Ey.
  - assert (H0 : (0 <= clamp (round_pos (- x)))%Q)
      by (apply clamp_nonneg, round_pos_nonneg; lra).
    lra.
  - apply Qopp_le_compat, clamp_mono, round_pos_mono; lra.
  - assert (H0 : (0 <= clamp (round_pos (- x)))%Q)
      by (apply clamp_nonneg, round_pos_nonneg; lra).
    assert (H1 : (0 <= clamp (round_pos y))%Q)
      by (apply clamp_nonneg, round_pos_nonneg; lra).
    lra.
  - apply clamp_mono, round_pos_mono; assumption.
Qed.

Lemma round_eq x y : (x == y)%Q -> (round x == round y)%Q.
Proof.
  intros H. apply Qle_antisym; apply round_mono; rewrite H; apply Qle_refl.
Qed.

Lemma round_0 : round 0 = 0%Q.
Proof. reflexivity. Qed.

(** Integers of up to 53 bits are doubles. *)
Lemma round_Z z : 0 <= z < 2 ^ 53 -> (round (inject_Z z) == inject_Z z)%Q.
Proof.
  intros [H0 H53]. destruct (Z.eq_dec z 0) as [-> | Hz]; [reflexivity |].
  assert (Hpos : (0 < inject_Z z)%Q)
    by (change 0%Q with (inject_Z 0); rewrite <- Zlt_Qlt; lia).
  unfold round. rewrite (proj1 (Qgt_alt _ _) Hpos).
  destruct (ilog2_spec _ Hpos) as [Hlo Hhi].
  set (e := ilog2 (inject_Z z)) in *.
  assert (He : 0 <= e < 53).
  { split.
    - assert (H : (pow2 0 < pow2 (e + 1))%Q).
      { eapply Qle_lt_trans; [| exact Hhi]. change (pow2 0) with (inject_Z 1).
        rewrite <- Zle_Qle. lia. }
      apply pow2_lt_inv in H. lia.
    - apply pow2_lt_inv. eapply Qle_lt_trans; [exact Hlo |].
      rewrite pow2_Z by lia. now rewrite <- Zlt_Qlt. }
  assert (Hr : (round_pos (inject_Z z) == inject_Z z)%Q).
  { unfold round_pos. fold e. rewrite Z.max_l by lia.
    rewrite (rne_eq _ (inject_Z (z * 2 ^ (52 - e)))).
    - rewrite rne_Z, inject_Z_mult, <- pow2_Z by lia.
      rewrite <- Qmult_assoc, <- pow2_add.
      replace (52 - e + (e - 52)) with 0 by ring. apply Qmult_1_r.
    - rewrite inject_Z_mult, <- pow2_Z by lia. reflexivity. }
  unfold clamp.
  replace (Qle_bool infinity (round_pos (inject_Z z))) with false;
    [exact Hr |].
  symmetry. apply not_true_is_false. intros H. apply Qle_bool_iff in H.
  rewrite Hr in H. unfold infinity in H. rewrite pow2_Z in H by lia.
  rewrite <- Zle_Qle in H.
  assert (2 ^ 53 < 2 ^ 1024) by (apply Z.pow_lt_mono_r; lia). lia.
Qed.

Lemma round_pos_eq x y :
  (x == y)%Q -> (0 < x)%Q -> (round_pos x == round_pos y)%Q.
Proof.
  intros H Hx. apply Qle_antisym; apply round_pos_mono.
  - exact Hx.
  - rewrite H. apply Qle_refl.
  - now rewrite <- H.
  - rewrite H. apply Qle_refl.
Qed.

Lemma clamp_eq x y : (x == y)%Q -> (clamp x == clamp y)%Q.
Proof.
  intros H. apply Qle_antisym; apply clamp_mono; rewrite H; apply Qle_refl.
Qed.

Lemma round_opp x : (round (- x) == - round x)%Q.
Proof.
  unfold round.
  destruct (Qcompare_spec x 0) as [Ex | Ex | Ex];
    destruct (Qcompare_spec (- x) 0) as [Ey | Ey | Ey]; try (exfalso; lra).
  - reflexivity.
  - rewrite Qopp_involutive. reflexivity.
  - rewrite (clamp_eq _ _ (round_pos_eq (- - x) x (Qopp_involutive x)
                                        ltac:(lra))).
    reflexivity.
Qed.

Lemma round_int z :
  Z.abs z < 2 ^ 53 -> (round (inject_Z z) == inject_Z z)%Q.
Proof.
  intros H. destruct (Z_le_gt_dec 0 z) as [Hz | Hz].
  - apply round_Z. lia.
  - assert (E : (inject_Z z == - inject_Z (- z))%Q).
    { rewrite inject_Z_opp. now rewrite Qopp_involutive. }
    rewrite (round_eq _ _ E), round_opp, round_Z by lia.
    symmetry. exact E.
Qed.

Lemma round_int_zero z : Qeq_bool (round (inject_Z z)) 0 = (z =? 0).
Proof.
  destruct (Z.eqb_spec z 0) as [-> | Hz]; [reflexivity |].
  apply not_true_is_false. intros H. apply Qeq_bool_iff in H.
  destruct (Z_le_gt_dec 0 z) as [Hp | Hn].
  - assert (H1 : (inject_Z 1 <= inject_Z z)%Q) by (rewrite <- Zle_Qle; lia).
    apply round_mono in H1.
    rewrite (round_Z 1) in H1 by (split; [lia | reflexivity]).
    rewrite H in H1. now apply H1.
  - assert (H1 : (inject_Z z <= inject_Z (-1))%Q) by (rewrite <- Zle_Qle; lia).
    apply round_mono in H1. rewrite (round_int (-1)) in H1 by reflexivity.
    rewrite H in H1. now apply H1.
Qed.

Lemma rne_error x :
  (inject_Z (rne x) - x <= 1 # 2)%Q /\ (x - inject_Z (rne x) <= 1 # 2)%Q.
Proof.
  pose proof (Qfloor_le x) as Hlo. pose proof (Qlt_floor x) as Hhi.
  rewrite inject_Z_plus in Hhi. change (inject_Z 1) with 1%Q in Hhi.
  unfold rne. set (f := Qfloor x) in *.
  destruct (Qcompare_spec (x - inject_Z f) (1 # 2)) as [E | E | E].
  - destruct (Z.even f);
      [| rewrite inject_Z_plus; change (inject_Z 1) with 1%Q];
      split; lra.
  - split; lra.
  - rewrite inject_Z_plus. change (inject_Z 1) with 1%Q. split; lra.
Qed.

Lemma pow2_half e : (pow2 e * (1 # 2) == pow2 (e - 1))%Q.
Proof.
  replace (e - 1) with (e + -1) by ring. rewrite pow2_add. reflexivity.
Qed.

(** The error of rounding below [2^p] is at most half a unit in the last
    place of the binade below [2^p]. *)
Lemma round_pos_error x p :
  (0 < x)%Q -> (x < pow2 p)%Q -> -1021 <= p ->
  (round_pos x - x <= pow2 (p - 54))%Q /\ (x - round_pos x <= pow2 (p - 54))%Q.
Proof.
  intros Hx Hp Hmin. unfold round_pos.
  set (e := Z.max (ilog2 x) (-1022)).
  assert (He : e <= p - 1).
  { destruct (ilog2_spec x Hx) as [Hlo _].
    assert (H : (pow2 (ilog2 x) < pow2 p)%Q)
      by (eapply Qle_lt_trans; eassumption).
    apply pow2_lt_inv in H. lia. }
  set (y := (x * pow2 (52 - e))%Q).
  assert (Hy : (x == y * pow2 (e - 52))%Q).
  { unfold y. rewrite <- Qmult_assoc, <- pow2_add.
    replace (52 - e + (e - 52)) with 0 by ring. symmetry. apply Qmult_1_r. }
  destruct (rne_error y) as [H1 H2].
  pose proof (pow2_pos (e - 52)) as Hpos.
  assert (Hle : (pow2 (e - 52) * (1 # 2) <= pow2 (p - 54))%Q).
  { rewrite pow2_half. apply pow2_le. lia. }
  assert (G1 : ((inject_Z (rne y) - y) * pow2 (e - 52)
                <= (1 # 2) * pow2 (e - 52))%Q)
    by (apply Qmult_le_compat_r; [exact H1 | now apply Qlt_le_weak]).
  assert (G2 : ((y - inject_Z (rne y)) * pow2 (e - 52)
                <= (1 # 2) * pow2 (e - 52))%Q)
    by (apply Qmult_le_compat_r; [exact H2 | now apply Qlt_le_weak]).
  fold y. split; lra.
Qed.

Lemma round_error x p :
  (0 <= x)%Q -> (x < pow2 p)%Q -> -1021 <= p <= 1023 ->
  (round x - x <= pow2 (p - 54))%Q /\ (x - round x <= pow2 (p - 54))%Q.
Proof.
  intros H0 Hp [Hmin Hmax]. pose proof (pow2_pos (p - 54)) as Hpos.
  unfold round.
  destruct (Qcompare_spec x 0) as [E | E | E]; try (exfalso; lra).
  - split; lra.
  - assert (Hc : clamp (round_pos x) = round_pos x).
    { unfold clamp.
      destruct (Qle_bool infinity (round_pos x)) eqn:Ei; [| reflexivity].
      exfalso. apply Qle_bool_iff in Ei.
      pose proof (round_pos_upper x E) as Hu.
      assert (H : (pow2 1024 <= pow2 (Z.max (ilog2 x) (-1022) + 1))%Q)
        by (eapply Qle_trans; eassumption).
      assert (Hlt : (pow2 (ilog2 x) < pow2 p)%Q).
      { destruct (ilog2_spec x E) as [Hlo _].
        eapply Qle_lt_trans; eassumption. }
      apply pow2_lt_inv in Hlt.
      assert (Hlt' : (pow2 (Z.max (ilog2 x) (-1022) + 1) < pow2 1024)%Q).
      { apply Qlt_le_trans with (pow2 (Z.max (ilog2 x) (-1022) + 1) * 2)%Q.
        - pose proof (pow2_pos (Z.max (ilog2 x) (-1022) + 1)). lra.
        - change 2%Q with (pow2 1). rewrite <- pow2_add. apply pow2_le. lia. }
      lra. }
    rewrite Hc. now apply round_pos_error.
Qed.

Lemma round_nonneg x : (0 <= x)%Q -> (0 <= round x)%Q.
Proof. intros H. exact (round_mono 0 x H). Qed.

Lemma round_nonpos x : (x <= 0)%Q -> (round x <= 0)%Q.
Proof. intros H. exact (round_mono x 0 H). Qed.



End DoubleFacts.

(** *** The interval gate *)

Example gate_at_the_boundary :
  fst (should_query_now (Some 0) 6 (idle_world six_hours)) = Ok true.
Proof. reflexivity. Qed.

Example gate_one_microsecond_early :
  fst (should_query_now (Some 0) 6 (idle_world (six_hours - 1))) = Ok false.
Proof. reflexivity. Qed.

(** For an interval of a whole number of hours the comparison of the doubles
    is that of the exact times: a microsecond is far more than the two
    roundings can lose. *)
Lemma whole_hours_gate (k t now : Z) :
  1 <= k <= 2 ^ 17 ->
  (inject_Z k <= hours_between now t)%Q <-> t + k * 3600000000 <= now.
Proof.
  intros [Hk1 Hk2]. change (2 ^ 17) with 131072 in Hk2.
  unfold hours_between, total_seconds. set (m := now - t).
  assert (Hm : t + k * 3600000000 <= now <-> k * 3600000000 <= m)
    by (unfold m; lia).
  rewrite Hm. clear Hm. clearbody m.
  assert (Hq : (1 <= inject_Z k <= 131072)%Q).
  { split; [change 1%Q with (inject_Z 1)
           | change 131072%Q with (inject_Z 131072)];
      rewrite <- Zle_Qle; lia. }
  split.
  - intros Hle. destruct (Z_le_gt_dec (k * 3600000000) m) as [H | H];
      [exact H | exfalso].
    apply (Qle_not_lt _ _ Hle). clear Hle.
    destruct (Z_le_gt_dec m 0) as [Hneg | Hpos].
    + apply Qle_lt_trans with 0%Q; [| lra].
      apply DoubleFacts.round_nonpos.
      assert (Hs : (Double.round (inject_Z m / inject_Z 1000000) <= 0)%Q).
      { apply DoubleFacts.round_nonpos.
        assert (Hm0 : (inject_Z m <= 0)%Q)
          by (change 0%Q with (inject_Z 0); rewrite <- Zle_Qle; lia).
        unfold Qdiv. change (/ inject_Z 1000000)%Q with (1 # 1000000)%Q.
        lra. }
      set (s := Double.round _) in *.
      unfold Qdiv. change (/ inject_Z 3600)%Q with (1 # 3600)%Q. lra.
    + set (x := (inject_Z m / inject_Z 1000000)%Q).
      assert (Hm1 : (1 <= inject_Z m)%Q)
        by (change 1%Q with (inject_Z 1); rewrite <- Zle_Qle; lia).
      assert (Hm2 : (inject_Z m + 1 <= inject_Z k * 3600000000)%Q).
      { change 3600000000%Q with (inject_Z 3600000000).
        change 1%Q with (inject_Z 1).
        rewrite <- inject_Z_mult, <- inject_Z_plus, <- Zle_Qle. lia. }
      assert (Hx : (x == inject_Z m * (1 # 1000000))%Q) by reflexivity.
      assert (Hx29 : (x < Double.pow2 29)%Q).
      { change (Double.pow2 29) with 536870912%Q. lra. }
      destruct (DoubleFacts.round_error x 29 ltac:(lra) Hx29 ltac:(lia))
        as [Hup _].
      change (Double.pow2 (29 - 54)) with (1 # 33554432)%Q in Hup.
      pose proof (DoubleFacts.round_nonneg x ltac:(lra)) as Hs0.
      set (s := Double.round x) in *.
      set (h := (s / inject_Z 3600)%Q).
      assert (Hh : (h == s * (1 # 3600))%Q) by reflexivity.
      assert (Hh17 : (h < Double.pow2 17)%Q).
      { change (Double.pow2 17) with 131072%Q. lra. }
      destruct (DoubleFacts.round_error h 17 ltac:(lra) Hh17 ltac:(lia))
        as [Hup' _].
      change (Double.pow2 (17 - 54)) with (1 # 137438953472)%Q in Hup'.
      lra.
  - intros Hle.
    assert (Hm2 : (inject_Z k * 3600000000 <= inject_Z m)%Q).
    { change 3600000000%Q with (inject_Z 3600000000).
      rewrite <- inject_Z_mult, <- Zle_Qle. lia. }
    assert (Hs : (inject_Z (k * 3600)
                  <= Double.round (inject_Z m / inject_Z 1000000))%Q).
    { rewrite <- (DoubleFacts.round_Z (k * 3600)).
      - apply DoubleFacts.round_mono. rewrite inject_Z_mult.
        unfold Qdiv. change (/ inject_Z 1000000)%Q with (1 # 1000000)%Q.
        change (inject_Z 3600) with 3600%Q. lra.
      - split; [lia |]. change (2 ^ 53) with 9007199254740992. lia. }
    rewrite <- (DoubleFacts.round_Z k).
    + apply DoubleFacts.round_mono. rewrite inject_Z_mult in Hs.
      set (s := Double.round _) in *.
      unfold Qdiv. change (/ inject_Z 3600)%Q with (1 # 3600)%Q.
      change (inject_Z 3600) with 3600%Q in Hs. lra.
    + split; [lia |]. change (2 ^ 53) with 9007199254740992. lia.
Qed.

(** A whole number of hours from a NUMERIC column is its own double. *)
Lemma float_of_whole_hours (k : Z) :
  0 <= k < 2 ^ 53 -> (float_of_decimal (inject_Z k) == inject_Z k)%Q.
Proof. apply DoubleFacts.round_Z. Qed.

(** C1, as stated, fails: the elapsed hours and the interval are compared as
    doubles.  With an interval of 0.667 hours and exactly 0.667 hours, that
    is 2401.2 seconds, elapsed, the gate answers false: the double nearest
    to 0.667 lies above the quotient of 2401.2 by 3600 in doubles.  With an
    interval of 17,000,000 hours, a double, and one microsecond less than
    that elapsed, the gate answers true: the quotient rounds up to the
    interval. *)
Lemma elapsed_hours_are_compared_as_doubles :
  ((inject_Z 2401200000 / inject_Z 1000000 / inject_Z 3600 == 667 # 1000)%Q /\
   fst (should_query_now (Some 0) (float_of_decimal (667 # 1000))
                         (idle_world 2401200000)) = Ok false) /\
  ((inject_Z 61199999999999999 / inject_Z 1000000 / inject_Z 3600
    < 17000000)%Q /\
   (float_of_decimal 17000000 == 17000000)%Q /\
   fst (should_query_now (Some 0) (float_of_decimal 17000000)
                         (idle_world 61199999999999999)) = Ok true).
Proof. vm_compute. repeat split. Qed.

(** C1, amended.  [should_query_now] never raises and leaves the world alone;
    it answers [true] exactly when [last_queried_at] is [None] or the hours
    elapsed since it, computed in doubles ([total_seconds()] rounds the
    seconds, the division by 3600 rounds again), are at least
    [interval_hours].  In particular it answers [true] for [None] whatever
    the interval, and when the computed hours equal the interval.  For an
    interval of a whole number of hours, up to [2^17], the doubles decide as
    the exact times do: the answer is [true] exactly when at least that many
    hours have elapsed. *)
Theorem should_query_now_spec (interval : Q) (w : World) :
  (forall last : option Z,
      exists b : bool,
        should_query_now last interval w = (Ok b, w) /\
        (b = true <->
         last = None \/
         exists t, last = Some t /\
                   (interval <= hours_between (clock w) t)%Q)) /\
  (forall t : Z,
      (hours_between (clock w) t == interval)%Q ->
      should_query_now (Some t) interval w = (Ok true, w)) /\
  should_query_now None interval w = (Ok true, w) /\
  (forall k t : Z,
      1 <= k <= 2 ^ 17 ->
      (interval == inject_Z k)%Q ->
      (should_query_now (Some t) interval w = (Ok true, w) <->
       t + k * 3600000000 <= clock w)).
Proof.
  split; [| split; [| split]].
  - intros [t |].
    + exists (Qle_bool interval (hours_between (clock w) t)).
      split; [reflexivity |].
      rewrite Qle_bool_iff. split.
      * intros H. right. exists t. split; [reflexivity | exact H].
      * intros [H | [t' [Ht' H]]]; [discriminate |].
        injection Ht' as <-. exact H.
    + exists true. split; [reflexivity |].
      split; [intros _; left; reflexivity | reflexivity].
  - intros t H. unfold should_query_now, bind, utcnow, ret.
    replace (Qle_bool interval (hours_between (clock w) t)) with true;
      [reflexivity |].
    symmetry. apply Qle_bool_iff. rewrite H. apply Qle_refl.
  - reflexivity.
  - intros k t Hk Hi. unfold should_query_now, bind, utcnow, ret. split.
    + intros [= H]. apply Qle_bool_iff in H. rewrite Hi in H.
      now apply whole_hours_gate in H.
    + intros H. do 2 f_equal. apply Qle_bool_iff. rewrite Hi.
      now apply whole_hours_gate.
Qed.

Example gate_on_whole_hours :
  fst (should_query_now (Some sample_start) (float_of_decimal 6)
                        (idle_world (sample_start + six_hours))) = Ok true /\
  fst (should_query_now (Some sample_start) (float_of_decimal 6)
                        (idle_world (sample_start + six_hours - 1)))
  = Ok false.
Proof. vm_compute. split; reflexivity. Qed.

(** *** The Distance Matrix client *)

Ltac break_hyp :=
  match goal with
  | H : context [match ?x with _ => _ end] |- _ =>
      lazymatch x with
      | context [match _ with _ => _ end] => fail
      | _ => destruct x eqn:?
      end
  end.

Ltac break_goal :=
  match goal with
  | |- context [match ?x with _ => _ end] =>
      lazymatch x with
      | context [match _ with _ => _ end] => fail
      | _ => destruct x eqn:?
      end
  end.

Lemma eq_str_true v s : eq_str v s = true -> v = VStr s.
Proof.
  destruct v; simpl; try discriminate.
  intros H. apply String.eqb_eq in H. now subst.
Qed.

Lemma getitem_ok v k x :
  getitem v k = Ok x -> exists d, v = VDict d /\ lookup k d = Some x.
Proof.
  destruct v; simpl; try discriminate.
  destruct (lookup k d) eqn:E; [| discriminate].
  intros [= <-]. eauto.
Qed.

Lemma getitem0_dict v d :
  getitem0 v = Ok (VDict d) -> exists l, v = VList (VDict d :: l).
Proof.
  destruct v as [| | | | s | l |]; simpl; try discriminate.
  - destruct s; discriminate.
  - destruct l; [discriminate |]. intros [= ->]. eauto.
Qed.

Lemma nested_value_get ef k v :
  (exists d, get (VDict ef) k (VDict []) = Ok d /\ get d "value" VNone = Ok v)
  <-> nested_value ef k = Some v.
Proof.
  unfold nested_value. simpl. split.
  - intros [d [[= <-] H]].
    destruct (lookup k ef) as [[]|]; simpl in H; try discriminate;
      injection H as <-; reflexivity.
  - intros H. eexists. split; [reflexivity |].
    destruct (lookup k ef) as [[]|]; simpl; try discriminate;
      injection H as <-; reflexivity.
Qed.

Lemma truthy_number v n : as_number v = Some n -> truthy v = negb (is_zero n).
Proof.
  destruct v; simpl; try discriminate; intros [= <-]; try reflexivity.
  - now destruct b.
  - now destruct f.
Qed.

(** An int that has a double is zero exactly when its double is. *)
Lemma to_float_zero n f : to_float n = Ok f -> is_zero (NFloat f) = is_zero n.
Proof.
  destruct n as [z | g]; simpl.
  - destruct (too_big z); [discriminate |]. intros [= <-].
    apply DoubleFacts.round_int_zero.
  - now intros [= <-].
Qed.

(** When [a - b] is computed. *)
Lemma sub_iff a b :
  (exists x, sub a b = Ok x) <->
  exists na nb, as_number a = Some na /\ as_number b = Some nb /\
                difference_fits na nb = true.
Proof.
  unfold sub.
  destruct (as_number a) as [[x | fx] |], (as_number b) as [[y | fy] |];
    simpl; try destruct (too_big x) eqn:Ex; try destruct (too_big y) eqn:Ey;
    simpl; (split;
            [ intros [v H]; try discriminate; do 2 eexists;
              repeat split; simpl; try rewrite Ex; try rewrite Ey; reflexivity
            | intros (na & nb & Ha & Hb & H); try discriminate;
              injection Ha as <-; injection Hb as <-; simpl in H;
              try rewrite Ex in H; try rewrite Ey in H; try discriminate;
              eauto ]).
Qed.

(** When [a / b] is computed. *)
Lemma truediv_iff a b :
  (exists q, truediv a b = Ok q) <->
  exists na nb, as_number a = Some na /\ as_number b = Some nb /\
                is_zero nb = false /\ quotient_fits na nb = true.
Proof.
  unfold truediv.
  destruct (as_number a) as [[x | fx] |], (as_number b) as [[y | fy] |];
    try (split; [intros [q H]; discriminate
                | intros (na & nb & Ha & Hb & _); discriminate]).
  - destruct (y =? 0) eqn:E0; [| destruct (float_overflow x y) eqn:Ef].
    all: split;
      [ intros [q H]; try discriminate; exists (NInt x), (NInt y);
        simpl; rewrite ?E0, ?Ef; auto
      | intros (na & nb & [= <-] & [= <-] & H0 & H); simpl in H0, H;
        rewrite ?E0, ?Ef in *; try discriminate; eauto ].
  - cbn [to_float]. destruct (too_big x) eqn:Ex;
      [| destruct (is_zero (NFloat fy)) eqn:E0].
    all: split;
      [ intros [q H]; try discriminate; exists (NInt x), (NFloat fy);
        simpl; try (simpl in E0); rewrite ?E0, ?Ex; auto
      | intros (na & nb & [= <-] & [= <-] & H0 & H); simpl in H0, H;
        try (simpl in E0);
        rewrite ?E0, ?Ex in *; try discriminate; eauto ].
  - pose proof (to_float_zero (NInt y)) as Hz. cbn [to_float] in *.
    destruct (too_big y) eqn:Ey.
    + split;
        [ intros [q H]; discriminate
        | intros (na & nb & [= <-] & [= <-] & H0 & H); simpl in H;
          rewrite Ey in H; discriminate ].
    + rewrite (Hz _ eq_refl). cbn [is_zero].
      destruct (y =? 0) eqn:E0.
      all: split;
        [ intros [q H]; try discriminate; exists (NFloat fx), (NInt y);
          simpl; rewrite ?E0, ?Ey; auto
        | intros (na & nb & [= <-] & [= <-] & H0 & H); simpl in H0, H;
          rewrite ?E0, ?Ey in *; try discriminate; eauto ].
  - cbn [to_float]. destruct (is_zero (NFloat fy)) eqn:E0.
    all: split;
      [ intros [q H]; try discriminate; exists (NFloat fx), (NFloat fy);
        simpl; simpl in E0; rewrite ?E0; auto
      | intros (na & nb & [= <-] & [= <-] & H0 & H); simpl in H0, E0;
        rewrite ?E0 in *; try discriminate; eauto ].
Qed.

(** The values the client accepts are those its tests and its arithmetic let
    through. *)
Lemma accepted_iff dur dit dist :
  accepted dur dit dist <->
  truthy dur = true /\ truthy dist = true /\
  (exists x, sub (if truthy dit then dit else dur) dur = Ok x) /\
  (exists q, truediv dist dur = Ok q) /\
  (exists q, truediv dist (if truthy dit then dit else dur) = Ok q).
Proof.
  unfold accepted, nonzero_number. rewrite sub_iff, !truediv_iff. split.
  - intros (nd & ns & nc & [Hd Hd0] & [Hs Hs0] & Hc & Hf1 & Hf2 & Hf3).
    assert (Hc0 : is_zero nc = false).
    { destruct (truthy dit) eqn:Et.
      - rewrite (truthy_number _ _ Hc) in Et.
        now apply negb_true_iff in Et.
      - rewrite Hd in Hc. now injection Hc as <-. }
    rewrite (truthy_number _ _ Hd), (truthy_number _ _ Hs), Hd0, Hs0.
    repeat split; eauto 10.
  - intros (Td & Ts & (nc & nd & Hc & Hd & Hf1) & (ns & nd' & Hs & Hd' & Hd0 & Hf2)
            & (ns' & nc' & Hs' & Hc' & Hc0 & Hf3)).
    rewrite Hd in Hd'. injection Hd' as <-.
    rewrite Hs in Hs'. injection Hs' as <-.
    rewrite Hc in Hc'. injection Hc' as <-.
    exists nd, ns, nc. repeat split; try assumption.
    rewrite (truthy_number _ _ Hs) in Ts. now apply negb_true_iff in Ts.
Qed.

Ltac step := cbn -[truthy sub truediv get lookup].

Lemma getitem_dict d k x : getitem (VDict d) k = Ok x -> lookup k d = Some x.
Proof. intros H. apply getitem_ok in H. now destruct H as (? & [= <-] & H). Qed.

Ltac invert_subscripts :=
  repeat match goal with
    | H : eq_str _ _ = true |- _ => apply eq_str_true in H; subst
    | H : getitem (VDict _) _ = Ok _ |- _ => apply getitem_dict in H
    | H : getitem ?v _ = Ok _ |- _ =>
        is_var v; destruct (getitem_ok _ _ _ H) as (? & -> & _)
    | H : getitem0 _ = Ok (VDict _) |- _ =>
        apply getitem0_dict in H; destruct H as (? & ->)
    end.

(** The client hands out data exactly for the bodies that [yields]
    describes. *)
Lemma query_data_iff o d w td :
  fst (_query_distance_matrix o d w) = Ok (Some td) <->
  yields (next_result w) td.
Proof.
  split.
  - unfold _query_distance_matrix, try_except, bind, lift, http_get_json,
      print, ret, next_result.
    intros H.
    repeat (break_hyp; simpl in *; try discriminate).
    all: injection H as <-.
    all: invert_subscripts.
    all: match goal with
         | H : _ && _ = true |- _ => apply andb_true_iff in H; destruct H
         end.
    all: match goal with
         | |- yields _ {| distance := ?s; freeflow_duration := ?f;
                          current_duration := _ |} =>
             match goal with
             | H : get _ "value" VNone = Ok ?t |- _ =>
                 lazymatch t with
                 | s => fail
                 | f => fail
                 | _ => do 2 eexists; exists f, t, s
                 end
             end
         end.
    all: split; [reflexivity |].
    all: split; [eassumption |].
    all: split; [eexists _, _, _; split; eassumption |].
    all: split; [eassumption |].
    all: do 3 (split; [apply nested_value_get; eauto |]).
    all: split; [apply accepted_iff |];
      match goal with
      | H : truthy ?t = _ |- context [if truthy ?t then _ else _] => rewrite H
      end;
      [repeat split; eauto | reflexivity].
  - intros (df & ef & dur & dit & dist & Hr & Hst & (rf & rr & er & Hrows & Hels)
            & Hest & Hdur & Hdit & Hdist & Hacc & ->).
    apply accepted_iff in Hacc.
    destruct Hacc as (Td & Ts & [x Hx] & [q Hq] & [q' Hq']).
    apply nested_value_get in Hdur, Hdit, Hdist.
    destruct Hdur as (d1 & Hd1 & Hd1'), Hdit as (d2 & Hd2 & Hd2'),
      Hdist as (d3 & Hd3 & Hd3').
    unfold next_result in Hr.
    unfold _query_distance_matrix, try_except, bind, lift, http_get_json,
      print, ret.
    destruct (api_script w) as [| out rest]; [discriminate |].
    rewrite Hr. step. rewrite Hst. step. rewrite Hrows. step.
    rewrite Hels. step. rewrite Hest. step.
    rewrite Hd1. step. rewrite Hd1'. step. rewrite Hd2. step.
    rewrite Hd2'. step. rewrite Hd3. step. rewrite Hd3'. step.
    rewrite Td, Ts. step. rewrite Hx. step.
    rewrite Hq. step.
    rewrite Hq'. reflexivity.
Qed.

(** The client never lets an exception out. *)
Lemma query_never_raises o d w :
  exists r, fst (_query_distance_matrix o d w) = Ok r.
Proof.
  unfold _query_distance_matrix, try_except.
  match goal with
  | |- context [match ?m w with _ => _ end] => destruct (m w) as [[r | e] w']
  end; eexists; reflexivity.
Qed.

(** What a request leaves behind: the clock has moved by its latency, the
    script and the list of requests have advanced, some lines were printed,
    and the database was not touched. *)
Lemma query_world o d w :
  exists out,
    snd (_query_distance_matrix o d w) =
    mkWorld (clock w + next_latency w) (tl (api_script w))
            (requests_sent w ++ [(o, d)]) (faults w) (committed w)
            (pending w) (sql_log w) (stdout w ++ out).
Proof.
  unfold _query_distance_matrix, try_except, bind, lift, http_get_json,
    print, ret, next_latency.
  repeat (break_goal; simpl).
  all: rewrite ?Z.add_0_r.
  all: first [ eexists; reflexivity
             | exists []; rewrite app_nil_r; reflexivity ].
Qed.

Lemma query_transport_error o d w e :
  transport_error (next_result w) = Some e ->
  fst (_query_distance_matrix o d w) = Ok None /\
  stdout (snd (_query_distance_matrix o d w)) = stdout w ++ [LApiError e].
Proof.
  unfold _query_distance_matrix, try_except, bind, lift, http_get_json,
    print, ret, next_result.
  destruct (api_script w) as [| out rest]; simpl.
  - intros [= <-]. auto.
  - destruct (result out); simpl; intros [= <-]; auto.
Qed.

Lemma query_over_limit o d w :
  over_query_limit (next_result w) ->
  fst (_query_distance_matrix o d w) = Ok None.
Proof.
  intros (df & Hr & H).
  unfold next_result in Hr.
  unfold _query_distance_matrix, try_except, bind, lift, http_get_json,
    print, ret.
  destruct (api_script w) as [| out rest]; [discriminate |].
  rewrite Hr. cbn -[lookup].
  destruct H as [Hst | (Hst & ef & (rf & rr & er & Hrows & Hels) & Hest)].
  - rewrite Hst. reflexivity.
  - rewrite Hst. cbn -[lookup]. rewrite Hrows. cbn -[lookup].
    rewrite Hels. cbn -[lookup]. rewrite Hest. reflexivity.
Qed.

Lemma no_result_unless_yields o d w :
  (forall td, ~ yields (next_result w) td) ->
  fst (_query_distance_matrix o d w) = Ok None.
Proof.
  intros Hno. destruct (query_never_raises o d w) as [[td |] Hr].
  - apply query_data_iff in Hr. now apply Hno in Hr.
  - exact Hr.
Qed.

Lemma first_element_unique df ef ef' :
  has_first_element df ef -> has_first_element df ef' -> ef = ef'.
Proof.
  intros (rf & rr & er & Hrows & Hels) (rf' & rr' & er' & Hrows' & Hels').
  rewrite Hrows in Hrows'. injection Hrows' as <- _.
  rewrite Hels in Hels'. now injection Hels' as <- _.
Qed.

(** Bodies the client turns down: a status other than [OK], at the top level
    or in the first element, a duration or distance without a value, or one
    of the three fields present without being an object. *)
Lemma query_turns_down o d w df :
  next_result w = Body (VDict df) ->
  lookup "status" df <> Some (VStr "OK") \/
  (exists ef,
      has_first_element df ef /\
      (lookup "status" ef <> Some (VStr "OK") \/
       nested_value ef "duration" = Some VNone \/
       nested_value ef "distance" = Some VNone \/
       nested_value ef "duration" = None \/
       nested_value ef "duration_in_traffic" = None \/
       nested_value ef "distance" = None)) ->
  fst (_query_distance_matrix o d w) = Ok None.
Proof.
  intros Hr Hbad. apply no_result_unless_yields.
  intros td (df' & ef' & dur & dit & dist & Hr' & Hst & Hfe & Hest & Hdur
             & Hdit & Hdist & (zdur & zdist & zcur & [Hzd _] & [Hzs _] & _)
             & _).
  rewrite Hr in Hr'. injection Hr' as <-.
  destruct Hbad as [Hbad | (ef & Hfe' & Hbad)]; [contradiction |].
  rewrite (first_element_unique _ _ _ Hfe' Hfe) in Hbad.
  destruct Hbad as [Hbad | [Hbad | [Hbad | [Hbad | [Hbad | Hbad]]]]];
    [contradiction | | | | |].
  - rewrite Hdur in Hbad. injection Hbad as ->. discriminate.
  - rewrite Hdist in Hbad. injection Hbad as ->. discriminate.
  - rewrite Hdur in Hbad. discriminate.
  - rewrite Hdit in Hbad. discriminate.
  - rewrite Hdist in Hbad. discriminate.
Qed.

Example freeflow_fallback :
  fst (_query_distance_matrix "a" "b"
         (answering [ok_body (element_without_traffic 5000 600)]))
  = Ok (Some (mkTraffic (VInt 5000) (VInt 600) (VInt 600))).
Proof. reflexivity. Qed.

Example traffic_duration_used :
  fst (_query_distance_matrix "a" "b"
         (answering [ok_body (element_with_traffic 5000 600 900)]))
  = Ok (Some (mkTraffic (VInt 5000) (VInt 600) (VInt 900))).
Proof. reflexivity. Qed.

(** A JSON number with a fraction is a float, and is accepted as it is. *)
Example fractional_duration_accepted :
  let dur := VFloat (FNum (1201 # 2)) in
  fst (_query_distance_matrix "a" "b"
         (answering
            [ok_body [field "distance" (measure 5000);
                      field "duration" (VDict [field "value" dur]);
                      field "status" (VStr "OK")]]))
  = Ok (Some (mkTraffic (VInt 5000) dur dur)).
Proof. vm_compute. reflexivity. Qed.

(** The speeds are computed and dropped: a quotient of floats that
    overflows is an infinity, not an exception, and the data are handed
    out.  Here the distance is [2^1023] and the duration [2^-1074]. *)
Example infinite_speed_accepted :
  let dist := VFloat (FNum (Double.pow2 1023)) in
  let dur := VFloat (FNum (Double.pow2 (-1074))) in
  truediv dist dur = Ok (FInf false) /\
  fst (_query_distance_matrix "a" "b"
         (answering
            [ok_body [field "distance" (VDict [field "value" dist]);
                      field "duration" (VDict [field "value" dur]);
                      field "status" (VStr "OK")]]))
  = Ok (Some (mkTraffic dist dur dur)).
Proof. vm_compute. split; reflexivity. Qed.

(** [NaN] is a number that is not zero: it is handed out as a duration. *)
Example nan_duration_accepted :
  let dur := VFloat FNaN in
  fst (_query_distance_matrix "a" "b"
         (answering
            [ok_body [field "distance" (measure 5000);
                      field "duration" (VDict [field "value" dur]);
                      field "status" (VStr "OK")]]))
  = Ok (Some (mkTraffic (VInt 5000) dur dur)).
Proof. vm_compute. reflexivity. Qed.

(** An int too large for a double cannot meet a float. *)
Example huge_distance_refused :
  let w := answering
             [ok_body [field "distance" (measure (2 ^ 1024));
                       field "duration"
                             (VDict [field "value" (VFloat (FNum 600))]);
                       field "status" (VStr "OK")]] in
  fst (_query_distance_matrix "a" "b" w) = Ok None /\
  stdout (snd (_query_distance_matrix "a" "b" w)) = [LApiError OverflowError].
Proof. vm_compute. split; reflexivity. Qed.

(** A field that is present must be an object: [null] has no [get]. *)
Example null_traffic_duration_refused :
  let w := answering
             [ok_body [field "distance" (measure 5000);
                       field "duration" (measure 600);
                       field "duration_in_traffic" VNone;
                       field "status" (VStr "OK")]] in
  fst (_query_distance_matrix "a" "b" w) = Ok None /\
  stdout (snd (_query_distance_matrix "a" "b" w)) = [LApiError AttributeError].
Proof. vm_compute. split; reflexivity. Qed.

(** C3, as stated, fails: for coinciding end points the API answers status
    [OK] with duration and distance both present and equal to zero, and the
    client returns no result. *)
Lemma present_zero_values_give_no_result :
  let ef := element_without_traffic 0 0 in
  let w := answering [ok_body ef] in
  (exists df, next_result w = Body (VDict df) /\
              lookup "status" df = Some (VStr "OK") /\
              has_first_element df ef) /\
  lookup "status" ef = Some (VStr "OK") /\
  value_present ef "duration" /\
  value_present ef "distance" /\
  fst (_query_distance_matrix "a" "a" w) = Ok None.
Proof.
  cbv zeta. split; [| split; [| split; [| split]]].
  - eexists. split; [reflexivity |]. split; [reflexivity |].
    eexists _, _, _. split; reflexivity.
  - reflexivity.
  - eexists _, _. split; reflexivity.
  - eexists _, _. split; reflexivity.
  - reflexivity.
Qed.

(** C3, amended.  The client never raises.  It returns data exactly when the
    body has status [OK], its first element has status [OK], each of
    [duration], [duration_in_traffic] and [distance] is absent from the
    element or an object, the duration and distance values are non-zero
    numbers (ints, bools or floats, infinities and not-a-number included),
    the traffic duration value is falsy or a number, and the delay and both
    speeds can be computed: an int that meets a float has a double, the
    quotient of two ints fits a double.  The data are then the distance, the
    duration and the current duration.  In particular a body with another
    status, at the top level or in the first element, without a value for
    the duration or the distance, or with one of the three fields present
    but not an object, gives no result.  A network error, a timeout or a
    body that is not JSON gives no result and is logged. *)
Theorem query_distance_matrix_result (origin destination : string) (w : World) :
  (exists r, fst (_query_distance_matrix origin destination w) = Ok r) /\
  (forall td,
      fst (_query_distance_matrix origin destination w) = Ok (Some td) <->
      yields (next_result w) td) /\
  (forall df,
      next_result w = Body (VDict df) ->
      lookup "status" df <> Some (VStr "OK") \/
      (exists ef,
          has_first_element df ef /\
          (lookup "status" ef <> Some (VStr "OK") \/
           nested_value ef "duration" = Some VNone \/
           nested_value ef "distance" = Some VNone \/
           nested_value ef "duration" = None \/
           nested_value ef "duration_in_traffic" = None \/
           nested_value ef "distance" = None)) ->
      fst (_query_distance_matrix origin destination w) = Ok None) /\
  (forall e,
      transport_error (next_result w) = Some e ->
      fst (_query_distance_matrix origin destination w) = Ok None /\
      stdout (snd (_query_distance_matrix origin destination w))
      = stdout w ++ [LApiError e]).
Proof.
  split; [apply query_never_raises |].
  split; [intros td; apply query_data_iff |].
  split; [intros df; apply query_turns_down |].
  intros e. apply query_transport_error.
Qed.

(** C4, as stated, fails: a [duration_in_traffic] that is present with value
    zero is not used, the current duration is the base duration. *)
Lemma present_zero_traffic_duration_ignored :
  let ef := element_with_traffic 5000 600 0 in
  let w := answering [ok_body ef] in
  value_present ef "duration_in_traffic" /\
  nested_value ef "duration_in_traffic" = Some (VInt 0) /\
  exists td,
    fst (_query_distance_matrix "a" "b" w) = Ok (Some td) /\
    current_duration td = VInt 600 /\
    current_duration td <> VInt 0.
Proof.
  cbv zeta. split; [eexists _, _; split; reflexivity |].
  split; [reflexivity |].
  eexists. split; [reflexivity |]. split; [reflexivity | discriminate].
Qed.

(** C4, amended.  When the client returns data, the current duration is the
    [duration_in_traffic] value if that value is truthy (present, not null,
    not zero) and the base duration otherwise; in particular it is the base
    duration when the element has no [duration_in_traffic]. *)
Theorem current_duration_rule (origin destination : string) (w : World)
  (td : TrafficData) :
  fst (_query_distance_matrix origin destination w) = Ok (Some td) ->
  exists df ef dur dit,
    next_result w = Body (VDict df) /\
    has_first_element df ef /\
    nested_value ef "duration" = Some dur /\
    nested_value ef "duration_in_traffic" = Some dit /\
    freeflow_duration td = dur /\
    current_duration td = (if truthy dit then dit else dur) /\
    (lookup "duration_in_traffic" ef = None -> current_duration td = dur).
Proof.
  intros H. apply query_data_iff in H.
  destruct H as (df & ef & dur & dit & dist & Hr & _ & Hfe & _ & Hdur & Hdit
                 & _ & _ & ->).
  exists df, ef, dur, dit. simpl.
  repeat (split; [assumption || reflexivity |]).
  intros Hnone. unfold nested_value in Hdit. rewrite Hnone in Hdit.
  injection Hdit as <-. reflexivity.
Qed.

Lemma current_duration_rule_witness :
  exists df ef dur dit,
    next_result (answering [ok_body (element_with_traffic 5000 600 900)])
    = Body (VDict df) /\
    has_first_element df ef /\
    nested_value ef "duration" = Some dur /\
    nested_value ef "duration_in_traffic" = Some dit /\
    freeflow_duration (mkTraffic (VInt 5000) (VInt 600) (VInt 900)) = dur /\
    current_duration (mkTraffic (VInt 5000) (VInt 600) (VInt 900))
    = (if truthy dit then dit else dur) /\
    (lookup "duration_in_traffic" ef = None ->
     current_duration (mkTraffic (VInt 5000) (VInt 600) (VInt 900)) = dur).
Proof.
  apply (current_duration_rule "a" "b"
           (answering [ok_body (element_with_traffic 5000 600 900)])).
  reflexivity.
Defined.

(** *** The loop over the segments *)

(** Printing does not change what the next request meets. *)
Lemma query_after_print o d l w :
  fst (_query_distance_matrix o d (snd (print l w)))
  = fst (_query_distance_matrix o d w).
Proof.
  destruct (query_never_raises o d (snd (print l w))) as [r Hr].
  destruct (query_never_raises o d w) as [r' Hr'].
  rewrite Hr, Hr'. f_equal.
  destruct r as [td |].
  - apply query_data_iff in Hr. change (next_result (snd (print l w)))
      with (next_result w) in Hr.
    apply (proj2 (query_data_iff o d w td)) in Hr.
    rewrite Hr in Hr'. now injection Hr'.
  - destruct r' as [td |]; [| reflexivity].
    apply query_data_iff in Hr'. change (next_result w)
      with (next_result (snd (print l w))) in Hr'.
    apply (proj2 (query_data_iff o d (snd (print l w)) td)) in Hr'.
    rewrite Hr in Hr'. discriminate.
Qed.

(** What a body yields is determined by the body. *)
Lemma yields_functional r td td' : yields r td -> yields r td' -> td = td'.
Proof.
  intros (df & ef & dur & dit & dist & Hr & _ & Hfe & _ & Hdur & Hdit & Hdist
          & _ & ->)
         (df' & ef' & dur' & dit' & dist' & Hr' & _ & Hfe' & _ & Hdur' & Hdit'
          & Hdist' & _ & ->).
  rewrite Hr in Hr'. injection Hr' as <-.
  rewrite (first_element_unique _ _ _ Hfe Hfe') in *.
  rewrite Hdur in Hdur'. injection Hdur' as <-.
  rewrite Hdit in Hdit'. injection Hdit' as <-.
  rewrite Hdist in Hdist'. injection Hdist' as <-.
  reflexivity.
Qed.

(** What the client returns depends on what its request meets only, not on
    the end points nor on the rest of the world. *)
Lemma query_answer o d w :
  fst (_query_distance_matrix o d w) = Ok (answer (next_result w)).
Proof.
  unfold answer.
  set (w0 := mkWorld 0 [mkOutcome 0 (next_result w)] [] [] empty_db empty_db
                     [] []).
  destruct (query_never_raises o d w) as [r Hr].
  destruct (query_never_raises "" "" w0) as [r0 Hr0].
  rewrite Hr, Hr0. f_equal.
  destruct r as [td |], r0 as [td0 |]; try reflexivity.
  - f_equal. apply (yields_functional (next_result w)).
    + exact (proj1 (query_data_iff _ _ _ _) Hr).
    + exact (proj1 (query_data_iff _ _ _ _) Hr0).
  - pose proof (proj1 (query_data_iff _ _ _ _) Hr) as Hy.
    change (next_result w) with (next_result w0) in Hy.
    apply (proj2 (query_data_iff "" "" w0 td)) in Hy.
    rewrite Hr0 in Hy. discriminate.
  - pose proof (proj1 (query_data_iff _ _ _ _) Hr0) as Hy.
    change (next_result w0) with (next_result w) in Hy.
    apply (proj2 (query_data_iff o d w td0)) in Hy.
    rewrite Hr in Hy. discriminate.
Qed.

Lemma query_segment_step rid ts total idx seg t w :
  exists r out,
    fst (_query_distance_matrix (origin_of seg) (destination_of seg) w) = Ok r /\
    query_segment rid ts total idx seg t w =
    (Ok (tally_after rid ts seg t r),
     mkWorld (clock w + next_latency w + 200000) (tl (api_script w))
             (requests_sent w ++ [(origin_of seg, destination_of seg)])
             (faults w) (committed w) (pending w) (sql_log w)
             (stdout w ++ out)).
Proof.
  unfold query_segment, try_except, bind.
  fold (origin_of seg). fold (destination_of seg).
  set (l := LSegment (idx + 1) total (segment_id seg)).
  change (print l w) with (Ok tt, snd (print l w)). cbv iota.
  pose proof (query_after_print (origin_of seg) (destination_of seg) l w) as Hp.
  destruct (query_never_raises (origin_of seg) (destination_of seg) w)
    as [r Hr].
  destruct (query_world (origin_of seg) (destination_of seg) (snd (print l w)))
    as [out Hw].
  rewrite Hr in Hp.
  destruct (_query_distance_matrix (origin_of seg) (destination_of seg)
              (snd (print l w))) as [res w2].
  simpl in Hp, Hw. subst res w2.
  exists r. destruct r as [td |].
  - exists (l :: out). split; [assumption |]. simpl.
    rewrite <- app_assoc. reflexivity.
  - exists (l :: out ++ [LFailed]). split; [assumption |]. simpl.
    rewrite <- !app_assoc. reflexivity.
Qed.

Lemma len_cons {A} (x : A) (l : list A) : len (x :: l) = len l + 1.
Proof. unfold len. cbn [List.length]. lia. Qed.

Lemma len_app {A} (l l' : list A) : len (l ++ l') = len l + len l'.
Proof. unfold len. rewrite List.length_app. lia. Qed.

Lemma len_nonneg {A} (l : list A) : 0 <= len l.
Proof. unfold len. lia. Qed.

Lemma next_latency_nonneg w : 0 <= next_latency w.
Proof. unfold next_latency. destruct (api_script w); lia. Qed.

Lemma progress_step rid ts seg t r :
  progress rid ts 1 t (tally_after rid ts seg t r).
Proof.
  destruct r as [td |]; simpl.
  - eexists [_], [_]. unfold len. simpl.
    repeat split; try reflexivity; try lia.
    constructor; [split; reflexivity | constructor].
  - exists [], []. unfold len. simpl. rewrite !app_nil_r.
    repeat split; try reflexivity; try lia. constructor.
Qed.

Lemma progress_trans rid ts n m t1 t2 t3 :
  progress rid ts n t1 t2 -> progress rid ts m t2 t3 ->
  progress rid ts (m + n) t1 t3.
Proof.
  intros (o1 & u1 & Ho1 & Hu1 & Hlo1 & Hlu1 & Hs1 & Hf1 & Hn1 & Hall1)
         (o2 & u2 & Ho2 & Hu2 & Hlo2 & Hlu2 & Hs2 & Hf2 & Hn2 & Hall2).
  exists (o1 ++ o2), (u1 ++ u2).
  rewrite Ho2, Ho1, Hu2, Hu1, !len_app, <- !app_assoc.
  repeat split; try reflexivity; try lia.
  apply Forall_app. split; assumption.
Qed.

Lemma for_each_segments rid ts total segs :
  forall idx t w,
  exists t' w',
    for_each (query_segment rid ts total) idx segs t w = (Ok t', w') /\
    progress rid ts (len segs) t t' /\
    passed (len segs) w w'.
Proof.
  induction segs as [| seg segs IH]; intros idx t w.
  - exists t, w. split; [reflexivity |]. split.
    + exists [], []. rewrite !app_nil_r.
      repeat split; try reflexivity; try (change (len []) with 0; lia).
      constructor.
    + unfold passed. change (len []) with 0.
      repeat split; try reflexivity; lia.
  - destruct (query_segment_step rid ts total idx seg t w)
      as (r & out & _ & Hstep).
    simpl for_each. unfold bind at 1. rewrite Hstep.
    match goal with
    | |- context [for_each _ _ _ ?t1 ?w1] =>
        destruct (IH (idx + 1) t1 w1) as (t' & w' & Hrun & Hprog & Hpass)
    end.
    exists t', w'. split; [exact Hrun |]. split.
    + rewrite len_cons.
      eapply progress_trans; [apply progress_step | exact Hprog].
    + destruct Hpass as (Hf & Hc & Hp & Hs & Hr & Hck).
      cbn [faults committed pending sql_log requests_sent clock] in *.
      unfold passed. rewrite len_cons.
      rewrite len_app in Hr. change (len [_]) with 1 in Hr.
      pose proof (next_latency_nonneg w).
      repeat split; try assumption; try lia.
Qed.

(** *** Writing the results *)

Lemma apply_stmts_app db ss ss' :
  apply_stmts db (ss ++ ss') = apply_stmts (apply_stmts db ss) ss'.
Proof. apply fold_left_app. Qed.

Lemma save_results_cases rid n t el w :
  (exists w',
      save_results rid n t el w = (Ok (successful t, failed t), w') /\
      sql_log w' = sql_log w ++ run_statements rid n t el ++ [Commit] /\
      pending w' = apply_stmts (pending w) (run_statements rid n t el) /\
      committed w' = pending w' /\
      clock w' = clock w /\
      requests_sent w' = requests_sent w /\
      (faults w = [] -> faults w' = []))
  \/
  (exists w' done rest,
      save_results rid n t el w = (Raise DatabaseError, w') /\
      committed w' = committed w /\
      sql_log w' = sql_log w ++ done /\
      run_statements rid n t el = done ++ rest /\
      faults w <> []).
Proof.
  unfold save_results, run_statements, bind, db_write, db_commit, db_call,
    bind, ret, print.
  set (A := map _ (segment_updates t)).
  set (B := map _ (observations t)).
  set (L := InsertQueryLog _).
  assert (HA : segment_updates t = [] -> A = [])
    by (intros E; subst A; now rewrite E).
  assert (HB : observations t = [] -> B = [])
    by (intros E; subst B; now rewrite E).
  destruct w as [ck api rs fl cm pd sl so].
  destruct (segment_updates t) as [| u us]; [rewrite (HA eq_refl) |];
    (destruct (observations t) as [| ob obs]; [rewrite (HB eq_refl) |]);
    clear HA HB; clearbody A B L; cbn [nonempty];
    destruct fl as [| [] [| [] [| [] [| [] fs]]]];
    cbn -[apply_stmts].
  all: first
    [ left; eexists; split; [reflexivity |];
      cbn -[apply_stmts];
      rewrite ?apply_stmts_app, <- ?app_assoc;
      repeat split; try reflexivity; discriminate
    | right; eexists _, _, _; split; [reflexivity |];
      cbn -[apply_stmts];
      split; [reflexivity |];
      split; [first [ symmetry; apply app_nil_r
                    | rewrite <- ?app_assoc; reflexivity ] |];
      split; [first [ reflexivity
                    | rewrite <- ?app_assoc; reflexivity ] | discriminate] ].
Qed.

Lemma collect_unfold rid :
  collect_traffic_data rid =
  (print (LCollecting rid) ;;
   segments <- db_read (select_segments rid) ;;
   print (LQuerying (len segments)) ;;
   timestamp <- utcnow ;;
   start_time <- time_time ;;
   t <- for_each (query_segment rid timestamp (len segments))
                 0 segments (mkTally [] [] 0 0) ;;
   end_time <- time_time ;;
   save_results rid (len segments) t
     (Double.truncate
        (Double.round (Double.round (end_time - start_time)%Q
                       * inject_Z 1000)%Q))).
Proof. reflexivity. Qed.

(** A run of [collect_traffic_data] either fails on its [SELECT], or goes
    through the loop and reaches the write phase. *)
Lemma collect_cases rid w :
  let n := len (select_segments rid (pending w)) in
  (exists w',
      collect_traffic_data rid w = (Raise DatabaseError, w') /\
      committed w' = committed w /\
      sql_log w' = sql_log w /\
      faults w <> [])
  \/
  (exists t w1,
      progress rid (clock w) n (mkTally [] [] 0 0) t /\
      committed w1 = committed w /\
      pending w1 = pending w /\
      sql_log w1 = sql_log w /\
      faults w1 = tl (faults w) /\
      len (requests_sent w1) = len (requests_sent w) + n /\
      clock w + 200000 * n <= clock w1 /\
      collect_traffic_data rid w =
      save_results rid n t (elapsed_ms (clock w) (clock w1)) w1).
Proof.
  intros n. rewrite collect_unfold.
  unfold bind, db_read, db_call, utcnow, time_time, print, ret, bind.
  unfold elapsed_ms, time_at.
  destruct w as [ck api rs fl cm pd sl so].
  cbn [faults committed pending sql_log clock requests_sent stdout api_script].
  destruct fl as [| [] fs];
    cbn [faults committed pending sql_log clock requests_sent stdout
           api_script tl].
  2: { left. eexists. split; [reflexivity |]. cbn. repeat split. discriminate. }
  all: right.
  all: match goal with
       | |- context [for_each ?b ?i ?l ?t0 ?w0] =>
           destruct (for_each_segments rid ck (len l) l i t0 w0)
             as (t & w1 & Hrun & Hprog & Hf & Hc & Hp & Hs & Hr & Hck);
           rewrite Hrun
       end.
  all: cbn [faults committed pending sql_log clock requests_sent] in *.
  all: exists t, w1; repeat split; assumption || reflexivity.
Qed.

(** *** What statements do to the tables *)

Lemma apply_stmts_observations ss :
  forall db,
    traffic_observations (apply_stmts db ss)
    = traffic_observations db ++ inserted_observations ss.
Proof.
  induction ss as [| s ss IH]; intros db.
  - simpl. now rewrite app_nil_r.
  - change (apply_stmts db (s :: ss)) with (apply_stmts (apply_stmt db s) ss).
    rewrite IH. destruct s; simpl; try reflexivity. now rewrite <- app_assoc.
Qed.

Lemma apply_stmts_query_log ss :
  forall db,
    query_log (apply_stmts db ss) = query_log db ++ inserted_logs ss.
Proof.
  induction ss as [| s ss IH]; intros db.
  - simpl. now rewrite app_nil_r.
  - change (apply_stmts db (s :: ss)) with (apply_stmts (apply_stmt db s) ss).
    rewrite IH. destruct s; simpl; try reflexivity. now rewrite <- app_assoc.
Qed.

Lemma run_statements_observations rid n t el :
  inserted_observations (run_statements rid n t el) = observations t.
Proof.
  unfold run_statements, inserted_observations.
  rewrite !flat_map_app. simpl. rewrite app_nil_r.
  replace (flat_map _ (map _ (segment_updates t))) with (@nil ObservationRow).
  - simpl. induction (observations t); simpl; congruence.
  - induction (segment_updates t); simpl; congruence.
Qed.

Lemma run_statements_logs rid n t el :
  inserted_logs (run_statements rid n t el)
  = [mkQueryLog rid n (successful t) (failed t) el].
Proof.
  unfold run_statements, inserted_logs.
  rewrite !flat_map_app. simpl.
  replace (flat_map _ (map _ (segment_updates t))) with (@nil QueryLogRow).
  - replace (flat_map _ (map _ (observations t))) with (@nil QueryLogRow).
    + reflexivity.
    + induction (observations t); simpl; congruence.
  - induction (segment_updates t); simpl; congruence.
Qed.

Lemma run_statements_updates rid n t el :
  distance_updates (run_statements rid n t el) = segment_updates t.
Proof.
  unfold run_statements, distance_updates.
  rewrite !flat_map_app. simpl. rewrite app_nil_r.
  replace (flat_map _ (map _ (observations t))) with (@nil (value * Z)).
  - rewrite app_nil_r.
    induction (segment_updates t) as [| [d i] l IH]; simpl; congruence.
  - induction (observations t); simpl; congruence.
Qed.

Lemma run_statements_no_commit rid n t el :
  ~ In Commit (run_statements rid n t el).
Proof.
  unfold run_statements. rewrite !in_app_iff, !in_map_iff.
  intros [(u & Hu & _) | [(o & Ho & _) | [H | []]]]; discriminate.
Qed.

(** What a run that returns has done. *)
Lemma collect_returns rid w s f w' :
  collect_traffic_data rid w = (Ok (s, f), w') ->
  let n := len (select_segments rid (pending w)) in
  exists t w1,
    progress rid (clock w) n (mkTally [] [] 0 0) t /\
    s = successful t /\ f = failed t /\
    clock w + 200000 * n <= clock w1 /\ clock w' = clock w1 /\
    len (requests_sent w') = len (requests_sent w) + n /\
    sql_log w'
    = sql_log w
      ++ run_statements rid n t (elapsed_ms (clock w) (clock w1)) ++ [Commit] /\
    pending w'
    = apply_stmts (pending w)
        (run_statements rid n t (elapsed_ms (clock w) (clock w1))) /\
    committed w' = pending w' /\
    (faults w = [] -> faults w' = []).
Proof.
  intros H n.
  pose proof (collect_cases rid w) as Hcases. cbv zeta in Hcases.
  destruct Hcases
    as [(w2 & Hr & _) | (t & w1 & Hprog & Hc & Hp & Hs & Hf & Hreq & Hck & Hrun)].
  - rewrite Hr in H. discriminate.
  - fold n in Hprog, Hrun, Hreq, Hck. rewrite Hrun in H.
    destruct (save_results_cases rid n t (elapsed_ms (clock w) (clock w1)) w1)
      as [(w2 & Hok & Hsql & Hpend & Hcomm & Hclk & Hrs & Hfl)
         | (w2 & done & rest & Hraise & _)].
    + rewrite Hok in H. injection H as <- <- <-.
      exists t, w1. rewrite <- Hs, <- Hp, Hrs.
      do 9 (split; [assumption || reflexivity |]).
      intros E. apply Hfl. rewrite Hf, E. reflexivity.
    + rewrite Hraise in H. discriminate.
Qed.

(** With a database that works, a run returns. *)
Lemma collect_total rid w :
  faults w = [] -> exists s f w', collect_traffic_data rid w = (Ok (s, f), w').
Proof.
  intros E.
  pose proof (collect_cases rid w) as Hcases. cbv zeta in Hcases.
  destruct Hcases
    as [(w2 & _ & _ & _ & Hne) | (t & w1 & _ & _ & _ & _ & Hf & _ & _ & Hrun)].
  - contradiction.
  - rewrite E in Hf. simpl in Hf.
    destruct (save_results_cases rid (len (select_segments rid (pending w))) t
                (elapsed_ms (clock w) (clock w1)) w1)
      as [(w2 & Hok & _) | (w2 & done & rest & _ & _ & _ & _ & Hne)].
    + rewrite Hrun, Hok. eauto.
    + contradiction.
Qed.

(** *** A sample run *)

Example sample_collection :
  let r := collect_traffic_data 7 sample_world in
  fst r = Ok (2, 1) /\
  query_log (committed (snd r)) = [mkQueryLog 7 3 2 1 750] /\
  traffic_observations (committed (snd r))
  = [mkObservation 1 7 sample_start (VInt 600) (VInt 900);
     mkObservation 3 7 sample_start (VInt 90) (VInt 90)] /\
  distance_updates (sql_log (snd r)) = [(VInt 5000, 1); (VInt 1200, 3)] /\
  len (requests_sent (snd r)) = 3.
Proof. vm_compute. repeat split. Qed.

(** *** The collection run *)

(** C2.  With a database that works a run returns, and a run that returns
    [(successful, failed)] over [n] segments has issued, in one commit, as
    many distance updates and as many observation rows as [successful] and
    one [query_log] row holding [n], [successful] and [failed], where
    [successful + failed = n]. *)
Theorem collect_counts (region_id : Z) (w : World) :
  let n := len (select_segments region_id (pending w)) in
  (faults w = [] ->
   exists s f w', collect_traffic_data region_id w = (Ok (s, f), w')) /\
  (forall s f w',
      collect_traffic_data region_id w = (Ok (s, f), w') ->
      exists new elapsed,
        sql_log w' = sql_log w ++ new ++ [Commit] /\
        ~ In Commit new /\
        inserted_logs new = [mkQueryLog region_id n s f elapsed] /\
        s + f = n /\ 0 <= s /\ 0 <= f /\
        len (inserted_observations new) = s /\
        len (distance_updates new) = s /\
        traffic_observations (committed w')
        = traffic_observations (pending w) ++ inserted_observations new /\
        query_log (committed w')
        = query_log (pending w) ++ [mkQueryLog region_id n s f elapsed]).
Proof.
  intros n. split; [apply collect_total |].
  intros s f w' H. apply collect_returns in H. fold n in H.
  destruct H as (t & w1 & Hprog & -> & -> & _ & _ & _ & Hsql & Hpend & Hcomm & _).
  destruct Hprog as (obs & upd & Hobs & Hupd & Hlo & Hlu & Hs & Hf & Hn & _).
  simpl in Hobs, Hupd, Hlo, Hlu, Hs, Hf, Hn.
  eexists _, _. split; [exact Hsql |].
  split; [apply run_statements_no_commit |].
  rewrite run_statements_logs, run_statements_observations,
    run_statements_updates.
  rewrite Hcomm, Hpend, apply_stmts_observations, apply_stmts_query_log,
    run_statements_logs, run_statements_observations.
  rewrite Hobs, Hupd.
  repeat split; try reflexivity; lia.
Qed.

(** C8.  Every observation row a run inserts carries the time the clock
    showed when the run started on its segments, whether or not the run goes
    on to commit; the rows a returning run has committed are these. *)
Theorem observations_share_timestamp (region_id : Z) (w : World) :
  (exists new,
      sql_log (snd (collect_traffic_data region_id w)) = sql_log w ++ new /\
      forall r, In r (inserted_observations new) -> observed_at r = clock w) /\
  (forall s f w',
      collect_traffic_data region_id w = (Ok (s, f), w') ->
      exists obs,
        traffic_observations (committed w')
        = traffic_observations (pending w) ++ obs /\
        len obs = s /\
        Forall (fun r => observed_at r = clock w) obs).
Proof.
  pose proof (collect_cases region_id w) as Hcases. cbv zeta in Hcases.
  set (n := len (select_segments region_id (pending w))) in *.
  split.
  - destruct Hcases
      as [(w2 & Hr & _ & Hsql & _)
         | (t & w1 & Hprog & _ & _ & Hs & _ & _ & _ & Hrun)].
    + exists []. rewrite Hr, app_nil_r. split; [exact Hsql | intros r []].
    + destruct Hprog as (obs & upd & Hobs & _ & _ & _ & _ & _ & _ & Hall).
      simpl in Hobs. rewrite Forall_forall in Hall.
      assert (Hin : forall r,
                 In r (inserted_observations
                         (run_statements region_id n t
                            (elapsed_ms (clock w) (clock w1)))) ->
                 observed_at r = clock w).
      { intros r. rewrite run_statements_observations, Hobs.
        intros Hr. now apply Hall. }
      rewrite Hrun.
      destruct (save_results_cases region_id n t
                  (elapsed_ms (clock w) (clock w1)) w1)
        as [(w2 & Hok & Hsql & _)
           | (w2 & done & rest & Hraise & _ & Hsql & Hsplit & _)].
      * rewrite Hok. simpl snd. rewrite Hsql, Hs. eexists.
        split; [reflexivity |].
        intros r. unfold inserted_observations. rewrite flat_map_app.
        simpl. rewrite app_nil_r. apply Hin.
      * rewrite Hraise. simpl snd. rewrite Hsql, Hs. eexists.
        split; [reflexivity |].
        intros r Hr. apply Hin. rewrite Hsplit.
        unfold inserted_observations. rewrite flat_map_app.
        apply in_or_app. now left.
  - intros s f w' H. apply collect_returns in H. fold n in H.
    destruct H as (t & w1 & Hprog & -> & -> & _ & _ & _ & _ & Hpend & Hcomm & _).
    destruct Hprog as (obs & upd & Hobs & _ & Hlo & _ & _ & _ & _ & Hall).
    simpl in Hobs, Hlo.
    exists obs.
    rewrite Hcomm, Hpend, apply_stmts_observations,
      run_statements_observations, Hobs.
    split; [reflexivity |]. split; [lia |].
    eapply Forall_impl; [| exact Hall]. intros r [Hr _]. exact Hr.
Qed.

(** C5.  When the next request meets an exhausted quota, at the top level or
    in the first element, the client returns no result, the segment adds one
    to [failed] and nothing else to the tally, the only delay is the request
    and the fixed pause, and the loop goes on with the remaining segments
    and sends a request for each of them. *)
Theorem over_query_limit_is_a_failed_segment
  (region_id timestamp total idx : Z) (seg : SegmentRow)
  (rest : list SegmentRow) (t : Tally) (w : World) :
  over_query_limit (next_result w) ->
  fst (_query_distance_matrix (origin_of seg) (destination_of seg) w)
  = Ok None /\
  exists w1,
    query_segment region_id timestamp total idx seg t w
    = (Ok (mkTally (observations t) (segment_updates t) (successful t)
                   (failed t + 1)), w1) /\
    clock w1 = clock w + next_latency w + 200000 /\
    api_script w1 = tl (api_script w) /\
    for_each (query_segment region_id timestamp total) idx (seg :: rest) t w
    = for_each (query_segment region_id timestamp total) (idx + 1) rest
        (mkTally (observations t) (segment_updates t) (successful t)
                 (failed t + 1)) w1 /\
    exists t' w',
      for_each (query_segment region_id timestamp total) idx (seg :: rest) t w
      = (Ok t', w') /\
      len (requests_sent w') = len (requests_sent w) + len (seg :: rest).
Proof.
  intros Hq.
  pose proof (query_over_limit (origin_of seg) (destination_of seg) w Hq)
    as Hnone.
  split; [exact Hnone |].
  destruct (query_segment_step region_id timestamp total idx seg t w)
    as (r & out & Hr & Hstep).
  rewrite Hnone in Hr. injection Hr as <-. simpl tally_after in Hstep.
  eexists. split; [exact Hstep |].
  split; [reflexivity |]. split; [reflexivity |].
  split.
  - simpl for_each. unfold bind at 1. rewrite Hstep. reflexivity.
  - destruct (for_each_segments region_id timestamp total (seg :: rest) idx t w)
      as (t' & w' & Hrun & _ & _ & _ & _ & _ & Hreq & _).
    exists t', w'. split; assumption.
Qed.

Lemma over_query_limit_is_a_failed_segment_witness :
  fst (_query_distance_matrix (origin_of (sample_segment 1 7))
         (destination_of (sample_segment 1 7)) quota_world)
  = Ok None /\
  exists w1,
    query_segment 7 sample_start 2 0 (sample_segment 1 7) (mkTally [] [] 0 0)
      quota_world
    = (Ok (mkTally [] [] 0 (0 + 1)), w1) /\
    clock w1 = clock quota_world + next_latency quota_world + 200000 /\
    api_script w1 = tl (api_script quota_world) /\
    for_each (query_segment 7 sample_start 2) 0
      [sample_segment 1 7; sample_segment 2 7] (mkTally [] [] 0 0) quota_world
    = for_each (query_segment 7 sample_start 2) (0 + 1) [sample_segment 2 7]
        (mkTally [] [] 0 (0 + 1)) w1 /\
    exists t' w',
      for_each (query_segment 7 sample_start 2) 0
        [sample_segment 1 7; sample_segment 2 7] (mkTally [] [] 0 0) quota_world
      = (Ok t', w') /\
      len (requests_sent w')
      = len (requests_sent quota_world)
        + len [sample_segment 1 7; sample_segment 2 7].
Proof.
  apply (over_query_limit_is_a_failed_segment 7 sample_start 2 0
           (sample_segment 1 7) [sample_segment 2 7] (mkTally [] [] 0 0)
           quota_world).
  eexists. split; [reflexivity |]. left. reflexivity.
Defined.

(** *** The orchestrator *)

Lemma run_read_fails w :
  hd false (faults w) = true ->
  exists out, run w = (Raise DatabaseError, after_read w out).
Proof.
  destruct w as [ck api rs fl cm pd sl so].
  destruct fl as [| [] fs]; simpl; try discriminate. intros _.
  eexists. unfold run, after_read. cbn. reflexivity.
Qed.

Lemma run_skips w :
  hd false (faults w) = false ->
  select_active_region (pending w) = None \/
  (exists a, select_active_region (pending w) = Some a /\
             due a (clock w) = false) ->
  exists out, run w = (Ok tt, after_read w out).
Proof.
  destruct w as [ck api rs fl cm pd sl so]. intros Hf Hsel.
  unfold run, get_active_region, db_read, db_call, bind, print, ret, after_read.
  cbn [faults pending clock api_script requests_sent committed sql_log stdout]
    in *.
  destruct Hsel as [Hnone | (a & Hsome & Hdue)].
  - destruct fl as [| [] fs]; try discriminate;
      cbn [faults pending clock api_script requests_sent committed sql_log
             stdout tl];
      rewrite Hnone;
      cbn [faults pending clock api_script requests_sent committed sql_log
             stdout tl];
      rewrite <- ?app_assoc; eexists; reflexivity.
  - unfold due in Hdue.
    destruct fl as [| [] fs]; try discriminate;
      cbn [faults pending clock api_script requests_sent committed sql_log
             stdout tl];
      rewrite Hsome;
      (destruct (act_last_queried_at a) as [last |]; [| discriminate]);
      unfold should_query_now, utcnow, bind, ret;
      cbn [faults pending clock api_script requests_sent committed sql_log
             stdout tl];
      rewrite Hdue; cbn [negb];
      cbn [faults pending clock api_script requests_sent committed sql_log
             stdout tl];
      rewrite <- ?app_assoc; eexists; reflexivity.
Qed.

Lemma run_collects w a :
  hd false (faults w) = false ->
  select_active_region (pending w) = Some a ->
  due a (clock w) = true ->
  exists out, run w = collection_block a (after_read w out).
Proof.
  destruct w as [ck api rs fl cm pd sl so]. intros Hf Hsome Hdue.
  unfold run, get_active_region, db_read, db_call, bind, print, ret, after_read.
  fold (collection_block a).
  cbn [faults pending clock api_script requests_sent committed sql_log stdout]
    in *.
  unfold due in Hdue.
  destruct fl as [| [] fs]; try discriminate;
    cbn [faults pending clock api_script requests_sent committed sql_log
           stdout tl];
    rewrite Hsome;
    (destruct (act_last_queried_at a) as [last |]);
    unfold should_query_now, utcnow, bind, ret;
    cbn [faults pending clock api_script requests_sent committed sql_log
           stdout tl];
    rewrite ?Hdue; cbn [negb];
    cbn [faults pending clock api_script requests_sent committed sql_log
           stdout tl];
    rewrite <- ?app_assoc; eexists; reflexivity.
Qed.

Lemma success_rate_cases s f :
  0 <= s -> 0 <= f ->
  (s + f = 0 /\ success_rate s f = Raise ZeroDivisionError) \/
  (s + f <> 0 /\ exists q, success_rate s f = Ok q).
Proof.
  intros Hs Hf. unfold success_rate, truediv. cbn [as_number].
  destruct (s + f =? 0) eqn:E.
  - left. apply Z.eqb_eq in E. auto.
  - right. apply Z.eqb_neq in E. split; [exact E |].
    assert (Hk : 2 <= 2 ^ 1024 - 2 ^ 970) by (apply Z.leb_le; reflexivity).
    unfold float_overflow.
    destruct ((2 ^ 1024 - 2 ^ 970) * Z.abs (s + f) <=? Z.abs s) eqn:Eo.
    + apply Z.leb_le in Eo. exfalso.
      set (k := 2 ^ 1024 - 2 ^ 970) in *. clearbody k. nia.
    + eauto.
Qed.


(** When the collection returns and the database works, the block commits
    the time the clock shows then, and fails on the success rate exactly
    when nothing was queried. *)
Lemma block_updates_config a w0 s f w1 :
  collect_traffic_data (act_region_id a) w0 = (Ok (s, f), w1) ->
  faults w1 = [] -> 0 <= s -> 0 <= f ->
  let update := UpdateConfig (clock w1) (clock w1) (act_region_id a) in
  exists q,
    collection_block a w0
    = ((if s + f =? 0 then Raise ZeroDivisionError else Ok tt),
       mkWorld (clock w1) (api_script w1) (requests_sent w1) []
               (apply_stmt (pending w1) update)
               (apply_stmt (pending w1) update)
               (sql_log w1 ++ [update; Commit])
               (stdout w1
                ++ [LCollectionComplete s f;
                    if s + f =? 0 then LCollectionFailed ZeroDivisionError
                    else LSuccessRate q;
                    LRule])).
Proof.
  intros H Hfl Hs Hf update.
  unfold collection_block, try_finally, try_except, bind at 1.
  rewrite H.
  unfold bind, utcnow, db_write, db_commit, db_call, bind, ret, lift, print,
    raise.
  destruct w1 as [ck api rs fl cm pd sl so].
  cbn [faults pending clock api_script requests_sent committed sql_log stdout
         fst snd] in *.
  subst fl.
  cbn [faults pending clock api_script requests_sent committed sql_log stdout
         fst snd apply_stmts fold_left].
  fold update.
  destruct (success_rate_cases s f Hs Hf) as [[Hz Hr] | [Hnz [q Hr]]];
    rewrite Hr.
  - rewrite Hz.
    cbn [faults pending clock api_script requests_sent committed sql_log
           stdout fst snd Z.eqb].
    exists FNaN. rewrite <- !app_assoc. reflexivity.
  - apply Z.eqb_neq in Hnz. rewrite Hnz.
    cbn [faults pending clock api_script requests_sent committed sql_log
           stdout fst snd].
    exists q. rewrite <- !app_assoc. reflexivity.
Qed.

Lemma main_cases conn key w :
  conn <> EmptyString -> key <> EmptyString ->
  (hd false (faults w) = true /\
   main (Some conn) (Some key) w = (1, connected w))
  \/
  (hd false (faults w) = false /\
   main (Some conn) (Some key) w
   = match run (connected w) with
     | (Ok _, w') => (0, w')
     | (Raise _, w') => (1, w')
     end).
Proof.
  intros Hc Hk. destruct conn as [| c cs]; [contradiction |].
  destruct key as [| k ks]; [contradiction |].
  unfold main, bind, db_call, connected.
  destruct w as [ck api rs fl cm pd sl so].
  destruct fl as [| [] fs]; cbn [faults hd tl]; auto.
Qed.

Lemma connected_id w : faults w = [] -> connected w = w.
Proof.
  destruct w as [ck api rs fl cm pd sl so]. simpl. intros ->. reflexivity.
Qed.

Lemma collection_config_kept ss :
  forall db,
    (forall lq up rid, ~ In (UpdateConfig lq up rid) ss) ->
    collection_config (apply_stmts db ss) = collection_config db.
Proof.
  induction ss as [| s ss IH]; intros db Hno; [reflexivity |].
  change (apply_stmts db (s :: ss)) with (apply_stmts (apply_stmt db s) ss).
  rewrite IH.
  - destruct s; try reflexivity. exfalso. eapply Hno. left. reflexivity.
  - intros lq up rid Hin. eapply Hno. right. exact Hin.
Qed.

Lemma run_statements_no_config rid n t el lq up r :
  ~ In (UpdateConfig lq up r) (run_statements rid n t el).
Proof.
  unfold run_statements. rewrite !in_app_iff, !in_map_iff.
  intros [(u & Hu & _) | [(o & Ho & _) | [H | []]]]; discriminate.
Qed.

(** C9.  When no region is active, or the active region is not due, the
    script leaves the database as it found it, issues no statement and sends
    no request; with a database that answers, the process exits with
    status 0. *)
Theorem skip_paths_write_nothing (conn key : string) (w : World) :
  conn <> EmptyString -> key <> EmptyString ->
  select_active_region (pending w) = None \/
  (exists a, select_active_region (pending w) = Some a /\
             due a (clock w) = false) ->
  let r := main (Some conn) (Some key) w in
  committed (snd r) = committed w /\
  pending (snd r) = pending w /\
  sql_log (snd r) = sql_log w /\
  requests_sent (snd r) = requests_sent w /\
  (faults w = [] -> fst r = 0).
Proof.
  intros Hc Hk Hskip r. subst r.
  destruct (main_cases conn key w Hc Hk) as [[Hf ->] | [Hf ->]].
  - simpl. repeat split. intros E. rewrite E in Hf. discriminate.
  - destruct (hd false (faults (connected w))) eqn:Hf'.
    + destruct (run_read_fails _ Hf') as [out ->]. simpl. repeat split.
      intros E. unfold connected in Hf'. rewrite E in Hf'. discriminate.
    + destruct (run_skips (connected w) Hf' Hskip) as [out ->]. simpl.
      repeat split.
Qed.

Lemma skip_paths_write_nothing_witness :
  let r := main (Some "postgresql://neon"%string) (Some "key"%string)
                (idle_world 0) in
  committed (snd r) = committed (idle_world 0) /\
  pending (snd r) = pending (idle_world 0) /\
  sql_log (snd r) = sql_log (idle_world 0) /\
  requests_sent (snd r) = requests_sent (idle_world 0) /\
  (faults (idle_world 0) = [] -> fst r = 0).
Proof.
  apply (skip_paths_write_nothing "postgresql://neon" "key" (idle_world 0)).
  - discriminate.
  - discriminate.
  - left. reflexivity.
Defined.

Example too_soon_is_skipped :
  let r := main (Some "postgresql://neon"%string) (Some "key"%string)
                recently_queried_world in
  fst r = 0 /\ sql_log (snd r) = [] /\ requests_sent (snd r) = [] /\
  committed (snd r) = committed recently_queried_world.
Proof. vm_compute. repeat split. Qed.

(** What a due run with a working database goes through. *)
Lemma due_run conn key w a :
  conn <> EmptyString -> key <> EmptyString ->
  faults w = [] ->
  select_active_region (pending w) = Some a ->
  due a (clock w) = true ->
  let rid := act_region_id a in
  let n := len (select_segments rid (pending w)) in
  exists out s f w1 t q,
    let w0 := after_read w out in
    let update := UpdateConfig (clock w1) (clock w1) rid in
    collect_traffic_data rid w0 = (Ok (s, f), w1) /\
    progress rid (clock w) n (mkTally [] [] 0 0) t /\
    s = successful t /\ f = failed t /\
    clock w + 200000 * n <= clock w1 /\
    len (requests_sent w1) = len (requests_sent w) + n /\
    (exists w2 : World,
        clock w2 = clock w1 /\
        sql_log w1
        = sql_log w
          ++ run_statements rid n t (elapsed_ms (clock w) (clock w2))
          ++ [Commit] /\
        committed w1
        = apply_stmts (pending w)
            (run_statements rid n t (elapsed_ms (clock w) (clock w2)))) /\
    pending w1 = committed w1 /\
    main (Some conn) (Some key) w
    = ((if s + f =? 0 then 1 else 0),
       mkWorld (clock w1) (api_script w1) (requests_sent w1) []
               (apply_stmt (committed w1) update)
               (apply_stmt (committed w1) update)
               (sql_log w1 ++ [update; Commit])
               (stdout w1
                ++ [LCollectionComplete s f;
                    if s + f =? 0 then LCollectionFailed ZeroDivisionError
                    else LSuccessRate q;
                    LRule])).
Proof.
  intros Hc Hk Hfl Hsel Hdue rid n.
  destruct (main_cases conn key w Hc Hk) as [[Hf _] | [_ Hmain]];
    [rewrite Hfl in Hf; discriminate |].
  rewrite (connected_id w Hfl) in Hmain.
  assert (Hhd : hd false (faults w) = false) by (rewrite Hfl; reflexivity).
  destruct (run_collects w a Hhd Hsel Hdue) as [out Hrun].
  rewrite Hrun in Hmain.
  assert (Hfl0 : faults (after_read w out) = []) by (simpl; now rewrite Hfl).
  destruct (collect_total rid (after_read w out) Hfl0) as (s & f & w1 & Hcol).
  pose proof (collect_returns rid (after_read w out) s f w1 Hcol) as Hret.
  cbv zeta in Hret.
  cbn [after_read pending clock requests_sent sql_log] in Hret.
  fold n in Hret.
  destruct Hret as (t & w2 & Hprog & Hs & Hf & Hck & Hclk & Hreq & Hsql & Hpend
                    & Hcomm & Hfl1).
  specialize (Hfl1 Hfl0).
  assert (Hs0 : 0 <= s /\ 0 <= f).
  { destruct Hprog as (_ & _ & _ & _ & _ & _ & H1 & H2 & _ & _).
    simpl in H1, H2. subst s f. lia. }
  destruct (block_updates_config a (after_read w out) s f w1 Hcol Hfl1
              (proj1 Hs0) (proj2 Hs0)) as [q Hblock].
  rewrite Hblock in Hmain.
  exists out, s, f, w1, t, q. cbv zeta.
  split; [exact Hcol |]. split; [exact Hprog |].
  split; [exact Hs |]. split; [exact Hf |].
  split; [lia |]. split; [exact Hreq |].
  split.
  { exists w2. split; [symmetry; exact Hclk |]. split; [exact Hsql |].
    rewrite Hcomm. exact Hpend. }
  split; [symmetry; exact Hcomm |].
  rewrite Hmain, Hcomm. destruct (s + f =? 0); reflexivity.
Qed.

(** C7, as stated, fails: in the sample run the time written to
    [last_queried_at] is the time the clock shows when the three requests
    and pauses are over, 750 ms after the start that the observations
    carry. *)
Lemma last_queried_at_not_start_adjacent :
  let final := snd (main (Some "postgresql://neon"%string) (Some "key"%string)
                         sample_world) in
  clock sample_world = sample_start /\
  map observed_at (traffic_observations (committed final))
  = [sample_start; sample_start] /\
  map last_queried_at (collection_config (committed final))
  = [Some (sample_start + 750000)] /\
  clock final = sample_start + 750000 /\
  len (requests_sent final) = 3 /\
  sample_start + 750000 <> sample_start.
Proof. vm_compute. repeat split. discriminate. Qed.

(** C7, amended.  On a due run with a working database the orchestrator
    sets [last_queried_at] and [updated_at] of the region to the time the
    clock shows once [collect_traffic_data] has returned, that is after
    every segment's request and 200 ms pause, and commits; this is the last
    thing it writes. *)
Theorem last_queried_at_is_read_after_collection
  (conn key : string) (w : World) (a : ActiveRegion) :
  conn <> EmptyString -> key <> EmptyString ->
  faults w = [] ->
  select_active_region (pending w) = Some a ->
  due a (clock w) = true ->
  let rid := act_region_id a in
  let n := len (select_segments rid (pending w)) in
  let final := snd (main (Some conn) (Some key) w) in
  exists finished : Z,
    clock w + 200000 * n <= finished /\
    clock final = finished /\
    len (requests_sent final) = len (requests_sent w) + n /\
    collection_config (committed final)
    = map (set_last_queried finished finished rid)
          (collection_config (pending w)) /\
    pending final = committed final /\
    exists before,
      sql_log final = before ++ [UpdateConfig finished finished rid; Commit].
Proof.
  intros Hc Hk Hfl Hsel Hdue rid n final.
  destruct (due_run conn key w a Hc Hk Hfl Hsel Hdue)
    as (out & s & f & w1 & t & q & H).
  cbv zeta in H. fold rid in H. fold n in H.
  destruct H as (_ & _ & _ & _ & Hck & Hreq & (w2 & _ & _ & Hcomm) & _ & Hmain).
  subst final. rewrite Hmain. cbn [snd clock requests_sent committed pending
                                     sql_log].
  exists (clock w1).
  split; [exact Hck |]. split; [reflexivity |]. split; [exact Hreq |].
  split.
  - cbn [apply_stmt collection_config]. rewrite Hcomm.
    rewrite collection_config_kept; [reflexivity |].
    intros lq up r. apply run_statements_no_config.
  - split; [reflexivity |]. eexists. reflexivity.
Qed.

Lemma last_queried_at_is_read_after_collection_witness :
  let rid := act_region_id sample_active in
  let n := len (select_segments rid (pending sample_world)) in
  let final := snd (main (Some "postgresql://neon"%string) (Some "key"%string)
                         sample_world) in
  exists finished : Z,
    clock sample_world + 200000 * n <= finished /\
    clock final = finished /\
    len (requests_sent final) = len (requests_sent sample_world) + n /\
    collection_config (committed final)
    = map (set_last_queried finished finished rid)
          (collection_config (pending sample_world)) /\
    pending final = committed final /\
    exists before,
      sql_log final = before ++ [UpdateConfig finished finished rid; Commit].
Proof.
  apply (last_queried_at_is_read_after_collection
           "postgresql://neon" "key" sample_world sample_active).
  - discriminate.
  - discriminate.
  - reflexivity.
  - reflexivity.
  - reflexivity.
Defined.

(** No time between the two readings of the clock: zero milliseconds. *)
Lemma elapsed_ms_same c : elapsed_ms c c = 0.
Proof.
  unfold elapsed_ms.
  assert (H : Double.round (time_at c - time_at c)%Q = 0%Q).
  { unfold Double.round.
    replace (time_at c - time_at c ?= 0)%Q with Eq; [reflexivity |].
    symmetry. apply Qeq_alt. unfold Qminus. apply Qplus_opp_r. }
  rewrite H. reflexivity.
Qed.

(** A region without segments: the run writes a log row of zeros. *)
Lemma collect_nothing rid w :
  faults w = [] ->
  select_segments rid (pending w) = [] ->
  collect_traffic_data rid w
  = (Ok (0, 0),
     mkWorld (clock w) (api_script w) (requests_sent w) []
             (apply_stmt (pending w) (InsertQueryLog (mkQueryLog rid 0 0 0 0)))
             (apply_stmt (pending w) (InsertQueryLog (mkQueryLog rid 0 0 0 0)))
             (sql_log w ++ [InsertQueryLog (mkQueryLog rid 0 0 0 0); Commit])
             (stdout w ++ [LCollecting rid; LQuerying 0])).
Proof.
  intros Hfl Hsegs. rewrite collect_unfold.
  unfold bind, db_read, db_call, utcnow, time_time, print, ret, save_results,
    db_write, db_commit, db_call, bind, ret.
  destruct w as [ck api rs fl cm pd sl so].
  cbn [faults pending clock api_script requests_sent committed sql_log stdout]
    in *.
  subst fl.
  cbn [faults pending clock api_script requests_sent committed sql_log stdout].
  rewrite Hsegs.
  cbn [for_each ret len List.length Z.of_nat nonempty segment_updates
         observations successful failed faults pending clock api_script
         requests_sent committed sql_log stdout apply_stmts fold_left].
  unfold ret.
  cbn [nonempty segment_updates
         observations successful failed faults pending clock api_script
         requests_sent committed sql_log stdout apply_stmts fold_left].
  change (Double.truncate _) with (elapsed_ms ck ck).
  rewrite elapsed_ms_same.
  rewrite <- !app_assoc. reflexivity.
Qed.

(** C10.  A due region without segments: the collection returns [(0, 0)] and
    commits a log row of zeros, the update of [last_queried_at] is committed
    too and the completion is announced; then the success rate divides by
    zero inside the [try] block, the exception is logged and raised again,
    and the process exits with status 1. *)
Theorem empty_region_run_fails_after_committing
  (conn key : string) (w : World) (a : ActiveRegion) :
  conn <> EmptyString -> key <> EmptyString ->
  faults w = [] ->
  select_active_region (pending w) = Some a ->
  due a (clock w) = true ->
  select_segments (act_region_id a) (pending w) = [] ->
  let rid := act_region_id a in
  let log_row := InsertQueryLog (mkQueryLog rid 0 0 0 0) in
  let update := UpdateConfig (clock w) (clock w) rid in
  let r := main (Some conn) (Some key) w in
  (exists w0,
      run w = collection_block a w0 /\
      fst (collect_traffic_data rid w0) = Ok (0, 0)) /\
  success_rate 0 0 = Raise ZeroDivisionError /\
  fst (run w) = Raise ZeroDivisionError /\
  fst r = 1 /\
  sql_log (snd r) = sql_log w ++ [log_row; Commit; update; Commit] /\
  committed (snd r) = apply_stmts (pending w) [log_row; update] /\
  exists printed,
    stdout (snd r)
    = printed ++ [LCollectionComplete 0 0;
                  LCollectionFailed ZeroDivisionError; LRule].
Proof.
  intros Hc Hk Hfl Hsel Hdue Hsegs rid log_row update r.
  destruct (main_cases conn key w Hc Hk) as [[Hf _] | [_ Hmain]];
    [rewrite Hfl in Hf; discriminate |].
  rewrite (connected_id w Hfl) in Hmain.
  assert (Hhd : hd false (faults w) = false) by (rewrite Hfl; reflexivity).
  destruct (run_collects w a Hhd Hsel Hdue) as [out Hrun].
  assert (Hfl0 : faults (after_read w out) = []) by (simpl; now rewrite Hfl).
  pose proof (collect_nothing rid (after_read w out) Hfl0 Hsegs) as Hcol.
  cbn [after_read pending clock requests_sent sql_log api_script stdout]
    in Hcol.
  fold log_row in Hcol.
  destruct (block_updates_config a (after_read w out) 0 0 _ Hcol eq_refl
              (Z.le_refl 0) (Z.le_refl 0)) as [q Hblock].
  cbn [clock pending sql_log stdout api_script requests_sent Z.add Z.eqb]
    in Hblock.
  fold rid in Hblock. fold update in Hblock.
  split; [exists (after_read w out); split; [exact Hrun | now rewrite Hcol] |].
  split; [reflexivity |].
  subst r. rewrite Hmain, Hrun, Hblock. cbn [fst snd sql_log committed stdout].
  split; [reflexivity |]. split; [reflexivity |].
  split; [rewrite <- app_assoc; reflexivity |].
  split; [reflexivity |].
  eexists. reflexivity.
Qed.

Lemma empty_region_run_fails_after_committing_witness :
  let w := empty_region_world in
  let a := mkActive 5 None 24 1 None 0 in
  let rid := act_region_id a in
  let log_row := InsertQueryLog (mkQueryLog rid 0 0 0 0) in
  let update := UpdateConfig (clock w) (clock w) rid in
  let r := main (Some "postgresql://neon"%string) (Some "key"%string) w in
  (exists w0,
      run w = collection_block a w0 /\
      fst (collect_traffic_data rid w0) = Ok (0, 0)) /\
  success_rate 0 0 = Raise ZeroDivisionError /\
  fst (run w) = Raise ZeroDivisionError /\
  fst r = 1 /\
  sql_log (snd r) = sql_log w ++ [log_row; Commit; update; Commit] /\
  committed (snd r) = apply_stmts (pending w) [log_row; update] /\
  exists printed,
    stdout (snd r)
    = printed ++ [LCollectionComplete 0 0;
                  LCollectionFailed ZeroDivisionError; LRule].
Proof.
  apply (empty_region_run_fails_after_committing
           "postgresql://neon" "key" empty_region_world
           (mkActive 5 None 24 1 None 0)).
  - discriminate.
  - discriminate.
  - reflexivity.
  - reflexivity.
  - reflexivity.
  - reflexivity.
Defined.

(** *** The loop, segment by segment *)

Lemma tally_over_rows rid ts l :
  forall t,
    observations (tally_over rid ts l t) = observations t ++ rows_of rid ts l /\
    segment_updates (tally_over rid ts l t) = segment_updates t ++ updates_of l.
Proof.
  induction l as [| [seg r] l IH]; intros t.
  - simpl. now rewrite !app_nil_r.
  - change (tally_over rid ts ((seg, r) :: l) t)
      with (tally_over rid ts l (tally_after rid ts seg t r)).
    destruct (IH (tally_after rid ts seg t r)) as [Ho Hu].
    rewrite Ho, Hu. destruct r as [td |]; simpl; rewrite <- ?app_assoc; auto.
Qed.

Lemma for_each_trace rid ts total segs :
  forall idx t w,
  exists rs w',
    for_each (query_segment rid ts total) idx segs t w
    = (Ok (tally_over rid ts (combine segs rs) t), w') /\
    rs = answers (List.length segs) (api_script w) /\
    List.length rs = List.length segs /\
    Forall from_a_body rs /\
    requests_sent w' = requests_sent w ++ map endpoints segs /\
    faults w' = faults w /\ committed w' = committed w /\
    pending w' = pending w /\ sql_log w' = sql_log w.
Proof.
  induction segs as [| seg segs IH]; intros idx t w.
  - exists [], w. simpl. rewrite app_nil_r. repeat split. constructor.
  - destruct (query_segment_step rid ts total idx seg t w)
      as (r & out & Hr & Hstep).
    simpl for_each. unfold bind at 1. rewrite Hstep.
    match goal with
    | |- context [for_each _ _ _ ?t1 ?w1] =>
        destruct (IH (idx + 1) t1 w1)
          as (rs & w' & Hrun & Hans & Hlen & Hall & Hreq & Hf & Hc & Hp & Hs)
    end.
    cbn [requests_sent faults committed pending sql_log api_script] in *.
    exists (r :: rs), w'. split; [exact Hrun |].
    split.
    { pose proof Hr as Hr'. rewrite (query_answer _ _ w) in Hr'.
      injection Hr' as <-. rewrite Hans. reflexivity. }
    split; [simpl; now rewrite Hlen |].
    split.
    + constructor; [| exact Hall].
      intros td ->. exists (next_result w).
      exact (proj1 (query_data_iff _ _ _ _) Hr).
    + rewrite Hreq, <- app_assoc. repeat split; assumption.
Qed.

Lemma save_results_requests rid n t el w :
  requests_sent (snd (save_results rid n t el w)) = requests_sent w.
Proof.
  unfold save_results, bind, db_write, db_commit, db_call, bind, ret, print.
  destruct w as [ck api rs fl cm pd sl so].
  destruct (segment_updates t), (observations t); cbn [nonempty];
    destruct fl as [| [] [| [] [| [] [| [] fs]]]]; reflexivity.
Qed.

(** What a run that gets past its [SELECT] has asked the API and meets in the
    write phase. *)
Lemma collect_trace rid w :
  hd false (faults w) = false ->
  let segs := select_segments rid (pending w) in
  exists rs w1,
    rs = answers (List.length segs) (api_script w) /\
    List.length rs = List.length segs /\
    Forall from_a_body rs /\
    requests_sent w1 = requests_sent w ++ map endpoints segs /\
    faults w1 = tl (faults w) /\ committed w1 = committed w /\
    pending w1 = pending w /\ sql_log w1 = sql_log w /\
    collect_traffic_data rid w
    = save_results rid (len segs)
        (tally_over rid (clock w) (combine segs rs) (mkTally [] [] 0 0))
        (elapsed_ms (clock w) (clock w1)) w1.
Proof.
  intros Hf segs. rewrite collect_unfold.
  unfold bind, db_read, db_call, utcnow, time_time, print, ret, bind.
  unfold elapsed_ms, time_at.
  destruct w as [ck api rs0 fl cm pd sl so].
  cbn [faults committed pending sql_log clock requests_sent stdout api_script]
    in *.
  destruct fl as [| [] fs]; try discriminate;
    cbn [faults committed pending sql_log clock requests_sent stdout
           api_script tl].
  all: fold segs.
  all: match goal with
       | |- context [for_each ?b ?i ?l ?t0 ?w0] =>
           destruct (for_each_trace rid ck (len l) l i t0 w0)
             as (rs & w1 & Hrun & Hans & Hlen & Hall & Hreq & Hfl & Hc & Hp
                 & Hs);
           rewrite Hrun
       end.
  all: cbn [faults committed pending sql_log clock requests_sent api_script]
    in *.
  all: exists rs, w1; repeat split; assumption || reflexivity.
Qed.

Lemma collect_read_fails rid w :
  hd false (faults w) = true ->
  exists w',
    collect_traffic_data rid w = (Raise DatabaseError, w') /\
    requests_sent w' = requests_sent w /\
    committed w' = committed w /\
    sql_log w' = sql_log w.
Proof.
  intros Hf. rewrite collect_unfold.
  unfold bind, db_read, db_call, utcnow, print, ret, bind.
  destruct w as [ck api rs0 fl cm pd sl so].
  cbn [faults committed pending sql_log clock requests_sent stdout api_script]
    in *.
  destruct fl as [| [] fs]; try discriminate.
  eexists. repeat split; reflexivity.
Qed.




Example failed_commit_leaves_nothing :
  let r := main (Some "postgresql://neon"%string) (Some "key"%string)
                failing_commit_world in
  fst r = 1 /\
  committed (snd r) = sample_db /\
  len (inserted_observations (sql_log (snd r))) = 2 /\
  len (distance_updates (sql_log (snd r))) = 2 /\
  len (inserted_logs (sql_log (snd r))) = 1 /\
  ~ In Commit (sql_log (snd r)).
Proof.
  vm_compute. repeat split.
  intros H. repeat (destruct H as [H | H]; [discriminate |]). exact H.
Qed.

(** ** Further properties *)

(** *** What no run changes *)

Lemma grows_refl db : grows db db.
Proof.
  repeat split; try reflexivity; exists []; now rewrite app_nil_r.
Qed.

Lemma grows_trans db1 db2 db3 :
  grows db1 db2 -> grows db2 db3 -> grows db1 db3.
Proof.
  intros (Hr & Hc & Hs & [o Ho] & [l Hl]) (Hr' & Hc' & Hs' & [o' Ho'] & [l' Hl']).
  repeat split; try congruence.
  - exists (o ++ o'). rewrite Ho', Ho. now rewrite app_assoc.
  - exists (l ++ l'). rewrite Hl', Hl. now rewrite app_assoc.
Qed.

Lemma set_distance_fixed d i s :
  segment_fixed (set_distance d i s) = segment_fixed s.
Proof. unfold set_distance. now destruct (segment_id s =? i). Qed.

Lemma set_last_queried_fixed lq up rid c :
  config_fixed (set_last_queried lq up rid c) = config_fixed c.
Proof. unfold set_last_queried. now destruct (cfg_region_id c =? rid). Qed.

Lemma grows_apply_stmt db s : grows db (apply_stmt db s).
Proof.
  destruct s; simpl; try apply grows_refl.
  - repeat split; try reflexivity; simpl.
    + rewrite map_map. apply map_ext. intros a. apply set_distance_fixed.
    + exists []. now rewrite app_nil_r.
    + exists []. now rewrite app_nil_r.
  - repeat split; try reflexivity; simpl; eexists; try reflexivity.
    now rewrite app_nil_r.
  - repeat split; try reflexivity; simpl; eexists; try reflexivity.
    now rewrite app_nil_r.
  - repeat split; try reflexivity; simpl.
    + rewrite map_map. apply map_ext. intros a. apply set_last_queried_fixed.
    + exists []. now rewrite app_nil_r.
    + exists []. now rewrite app_nil_r.
Qed.

Lemma grows_apply_stmts ss : forall db, grows db (apply_stmts db ss).
Proof.
  induction ss as [| s ss IH]; intros db; [apply grows_refl |].
  change (apply_stmts db (s :: ss)) with (apply_stmts (apply_stmt db s) ss).
  eapply grows_trans; [apply grows_apply_stmt | apply IH].
Qed.

Lemma keeps_ret {A} (a : A) : keeps (ret a).
Proof. intros base w H. exact H. Qed.

Lemma keeps_raise {A} (e : exn) : keeps (@raise A e).
Proof. intros base w H. exact H. Qed.

Lemma keeps_lift {A} (r : res A) : keeps (lift r).
Proof. intros base w H. exact H. Qed.

Lemma keeps_bind {A B} (m : M A) (k : A -> M B) :
  keeps m -> (forall a, keeps (k a)) -> keeps (bind m k).
Proof.
  intros Hm Hk base w H. unfold bind.
  specialize (Hm base w H). destruct (m w) as [[a | e] w']; simpl in Hm.
  - now apply Hk.
  - exact Hm.
Qed.

Lemma keeps_try_except {A} (m : M A) (h : exn -> M A) :
  keeps m -> (forall e, keeps (h e)) -> keeps (try_except m h).
Proof.
  intros Hm Hh base w H. unfold try_except.
  specialize (Hm base w H). destruct (m w) as [[a | e] w']; simpl in Hm.
  - exact Hm.
  - now apply Hh.
Qed.

Lemma keeps_try_finally {A} (m : M A) (f : M unit) :
  keeps m -> keeps f -> keeps (try_finally m f).
Proof.
  intros Hm Hf base w H. unfold try_finally.
  specialize (Hm base w H). destruct (m w) as [r w']; simpl in Hm.
  specialize (Hf base w' Hm). now destruct (f w') as [[[] | e] w''].
Qed.

Lemma keeps_print l : keeps (print l).
Proof. intros base w H. exact H. Qed.

Lemma keeps_utcnow : keeps utcnow.
Proof. intros base w H. exact H. Qed.

Lemma keeps_time_time : keeps time_time.
Proof. intros base w H. exact H. Qed.

Lemma keeps_sleep n : keeps (sleep n).
Proof. intros base w H. exact H. Qed.

Lemma keeps_http_get_json o d : keeps (http_get_json o d).
Proof.
  intros base w H. unfold http_get_json.
  destruct (api_script w) as [| out rest]; [exact H |].
  now destruct (result out).
Qed.

Lemma keeps_db_call : keeps db_call.
Proof.
  intros base w H. unfold db_call. now destruct (faults w) as [| [] fs].
Qed.

Lemma keeps_db_write ss : keeps (db_write ss).
Proof.
  unfold db_write. apply keeps_bind; [apply keeps_db_call |].
  intros _ base w [Hc Hp]. split; [exact Hc |]. simpl.
  eapply grows_trans; [exact Hp | apply grows_apply_stmts].
Qed.

Lemma keeps_db_commit : keeps db_commit.
Proof.
  unfold db_commit. apply keeps_bind; [apply keeps_db_call |].
  intros _ base w [Hc Hp]. split; exact Hp.
Qed.

Lemma keeps_db_read {A} (q : DB -> A) : keeps (db_read q).
Proof.
  unfold db_read. apply keeps_bind; [apply keeps_db_call |].
  intros _ base w H. exact H.
Qed.

Lemma keeps_for_each {A S} (body : Z -> A -> S -> M S) xs :
  (forall idx x st, keeps (body idx x st)) ->
  forall idx st, keeps (for_each body idx xs st).
Proof.
  intros Hbody. induction xs as [| x xs IH]; intros idx st; simpl.
  - apply keeps_ret.
  - apply keeps_bind; [apply Hbody | intros st'; apply IH].
Qed.

Create HintDb keeps.

#[local] Hint Resolve keeps_ret keeps_raise keeps_lift keeps_print keeps_utcnow
  keeps_time_time keeps_sleep keeps_http_get_json keeps_db_call keeps_db_write keeps_db_commit
  keeps_db_read : keeps.

(** Break a computation down to its primitive effects. *)
Ltac keeps_steps :=
  repeat first
    [ solve [auto with keeps]
    | match goal with
      | |- keeps (bind _ _) => apply keeps_bind; [| intros ?]
      | |- keeps (try_except _ _) => apply keeps_try_except; [| intros ?]
      | |- keeps (try_finally _ _) => apply keeps_try_finally
      | |- keeps (for_each _ _ _ _) => apply keeps_for_each; intros ? ? ?
      | |- keeps (if ?b then _ else _) => destruct b
      | |- keeps (match ?x with _ => _ end) => destruct x
      end ].

Lemma keeps_query o d : keeps (_query_distance_matrix o d).
Proof. unfold _query_distance_matrix. keeps_steps. Qed.

Lemma keeps_query_segment rid ts total idx seg t :
  keeps (query_segment rid ts total idx seg t).
Proof.
  unfold query_segment. pose proof keeps_query. keeps_steps.
Qed.

Lemma keeps_collect rid : keeps (collect_traffic_data rid).
Proof.
  unfold collect_traffic_data.
  pose proof keeps_query_segment.
  keeps_steps.
Qed.

Lemma keeps_should_query_now last interval :
  keeps (should_query_now last interval).
Proof. unfold should_query_now. keeps_steps. Qed.

Lemma keeps_run : keeps run.
Proof.
  unfold run, get_active_region.
  pose proof keeps_collect. pose proof keeps_should_query_now.
  keeps_steps.
Qed.

(** The script as a whole. *)
Lemma keeps_main db_connection google_api_key base w :
  descends base w ->
  descends base (snd (main db_connection google_api_key w)).
Proof.
  intros H. unfold main.
  assert (Hrun : descends base (snd ((db_call ;; run) w))).
  { apply (keeps_bind db_call (fun _ => run)); auto using keeps_db_call.
    intros _. apply keeps_run. }
  destruct db_connection as [[| c cs] |]; try exact H;
    destruct google_api_key as [[| k ks] |]; try exact H;
    now destruct ((db_call ;; run) w) as [[[] | e] w'].
Qed.

Lemma subseq_nil_l {A} (l : list A) : subseq [] l.
Proof. induction l; constructor; assumption. Qed.

Lemma updates_of_ids segs :
  forall rs,
    subseq (map snd (updates_of (combine segs rs))) (map segment_id segs).
Proof.
  induction segs as [| seg segs IH]; intros rs; [constructor |].
  destruct rs as [| [td |] rs]; simpl.
  - apply subseq_nil_l.
  - apply subseq_take, IH.
  - apply subseq_skip, IH.
Qed.

Lemma rows_and_updates_ids rid ts l :
  map obs_segment_id (rows_of rid ts l) = map snd (updates_of l).
Proof.
  induction l as [| [seg [td |]] l IH]; simpl; congruence.
Qed.

Lemma rows_of_region rid ts l :
  Forall (fun r => obs_region_id r = rid /\ observed_at r = ts)
         (rows_of rid ts l).
Proof.
  induction l as [| [seg [td |]] l IH]; simpl; auto.
Qed.

Lemma yields_nonzero body td :
  yields body td ->
  nonzero (distance td) /\ nonzero (freeflow_duration td) /\
  nonzero (current_duration td).
Proof.
  intros (df & ef & dur & dit & dist & _ & _ & _ & _ & _ & _ & _
          & (zdur & zdist & zcur & Hdur & Hdist & Hcur & _) & ->).
  simpl. split; [exists zdist; exact Hdist |].
  split; [exists zdur; exact Hdur |].
  exists zcur. split; [exact Hcur |].
  destruct (truthy dit) eqn:Et.
  - rewrite (truthy_number _ _ Hcur) in Et.
    now apply negb_true_iff in Et.
  - destruct Hdur as [Hz Hnz]. rewrite Hz in Hcur. now injection Hcur as <-.
Qed.

Lemma rows_of_nonzero rid ts segs :
  forall rs,
    Forall from_a_body rs ->
    Forall (fun r => nonzero (freeflow_duration_seconds r) /\
                     nonzero (current_duration_seconds r))
           (rows_of rid ts (combine segs rs)) /\
    Forall (fun u => nonzero (fst u)) (updates_of (combine segs rs)).
Proof.
  induction segs as [| seg segs IH]; intros rs Hall; [split; constructor |].
  destruct rs as [| r rs]; [split; constructor |].
  inversion Hall as [| r' rs' Hr Hrs]; subst.
  destruct (IH rs Hrs) as [Hrows Hupd].
  destruct r as [td |]; simpl; [| split; assumption].
  destruct (Hr td eq_refl) as [body Hy].
  destruct (yields_nonzero body td Hy) as (Hd & Hf & Hc).
  split; constructor; auto.
Qed.

(** What a returning run has written, in terms of the segments and of what
    their queries returned. *)
Lemma collect_writes rid w s f w' :
  collect_traffic_data rid w = (Ok (s, f), w') ->
  let segs := select_segments rid (pending w) in
  exists rs log_row,
    List.length rs = List.length segs /\
    Forall from_a_body rs /\
    sql_log w'
    = sql_log w
      ++ (map (fun u => UpdateSegmentDistance (fst u) (snd u))
              (updates_of (combine segs rs))
          ++ map InsertObservation (rows_of rid (clock w) (combine segs rs))
          ++ [InsertQueryLog log_row])
      ++ [Commit] /\
    committed w'
    = apply_stmts (pending w)
        (map (fun u => UpdateSegmentDistance (fst u) (snd u))
             (updates_of (combine segs rs))
         ++ map InsertObservation (rows_of rid (clock w) (combine segs rs))
         ++ [InsertQueryLog log_row]).
Proof.
  intros H segs.
  destruct (hd false (faults w)) eqn:Hf.
  { destruct (collect_read_fails rid w Hf) as (w2 & Hr & _).
    rewrite Hr in H. discriminate. }
  destruct (collect_trace rid w Hf)
    as (rs & w1 & _ & Hlen & Hall & _ & _ & _ & Hp & Hs & Hrun).
  fold segs in Hlen, Hrun. rewrite Hrun in H.
  match type of H with
  | save_results ?r ?n ?t ?el ?w1 = _ =>
      destruct (save_results_cases r n t el w1)
        as [(w2 & Hok & Hsql & Hpend & Hcomm & _)
           | (w2 & done & rest & Hraise & _)];
      [rewrite Hok in H | rewrite Hraise in H; discriminate]
  end.
  injection H as <- <- <-.
  unfold run_statements in Hsql, Hpend.
  destruct (tally_over_rows rid (clock w) (combine segs rs) (mkTally [] [] 0 0))
    as [Ho Hu].
  simpl in Ho, Hu. rewrite Ho, Hu, Hs in Hsql. rewrite Ho, Hu, Hp in Hpend.
  exists rs. eexists. split; [exact Hlen |]. split; [exact Hall |].
  split; [exact Hsql |]. rewrite Hcomm. exact Hpend.
Qed.

Lemma inserted_observations_of upd rows log_row :
  inserted_observations
    (map (fun u => UpdateSegmentDistance (fst u) (snd u)) upd
     ++ map InsertObservation rows ++ [InsertQueryLog log_row])
  = rows.
Proof.
  unfold inserted_observations. rewrite !flat_map_app. simpl.
  rewrite app_nil_r.
  replace (flat_map _ (map _ upd)) with (@nil ObservationRow)
    by (induction upd; simpl; congruence).
  simpl. induction rows; simpl; congruence.
Qed.

Lemma distance_updates_of upd rows log_row :
  distance_updates
    (map (fun u => UpdateSegmentDistance (fst u) (snd u)) upd
     ++ map InsertObservation rows ++ [InsertQueryLog log_row])
  = upd.
Proof.
  unfold distance_updates. rewrite !flat_map_app. simpl.
  rewrite app_nil_r.
  replace (flat_map _ (map _ rows)) with (@nil (value * Z))
    by (induction rows; simpl; congruence).
  rewrite app_nil_r. induction upd as [| [d i] upd IH]; simpl; congruence.
Qed.

(** X2.  A run that gets past its [SELECT] sends one request per segment of
    the region, in the order of the table and with the segment's own
    ["lat,lng"] end points, and none for any other segment, whatever the
    answers are and whether or not the write phase succeeds; a run whose
    [SELECT] fails sends none. *)
Theorem every_segment_is_queried_once (region_id : Z) (w : World) :
  (hd false (faults w) = false ->
   requests_sent (snd (collect_traffic_data region_id w))
   = requests_sent w
     ++ map endpoints
            (filter (fun s => seg_region_id s =? region_id)
                    (road_segments (pending w)))) /\
  (hd false (faults w) = true ->
   requests_sent (snd (collect_traffic_data region_id w)) = requests_sent w).
Proof.
  split; intros Hf.
  - destruct (collect_trace region_id w Hf)
      as (rs & w1 & _ & _ & _ & Hreq & _ & _ & _ & _ & Hrun).
    rewrite Hrun, save_results_requests. exact Hreq.
  - destruct (collect_read_fails region_id w Hf) as (w' & -> & Hreq & _).
    exact Hreq.
Qed.

(** X3.  In a returning run the observation rows and the distance updates
    pair up: they name the same segments in the same order, these are
    segments of the region taken in table order, at most once per place in
    the table, and every row carries the region and the run's timestamp. *)
Theorem rows_and_updates_pair_up (region_id : Z) (w : World) (s f : Z)
  (w' : World) :
  collect_traffic_data region_id w = (Ok (s, f), w') ->
  exists new,
    sql_log w' = sql_log w ++ new ++ [Commit] /\
    map obs_segment_id (inserted_observations new)
    = map snd (distance_updates new) /\
    subseq (map snd (distance_updates new))
           (map segment_id (select_segments region_id (pending w))) /\
    Forall (fun r => obs_region_id r = region_id /\ observed_at r = clock w)
           (inserted_observations new).
Proof.
  intros H. apply collect_writes in H. cbv zeta in H.
  destruct H as (rs & log_row & _ & _ & Hsql & _).
  eexists. split; [exact Hsql |].
  rewrite inserted_observations_of, distance_updates_of.
  split; [apply rows_and_updates_ids |].
  split; [apply updates_of_ids | apply rows_of_region].
Qed.

(** X4.  A returning run stores only numbers that are not zero: the free-flow
    and current durations of every observation row, and the distance of
    every update, are ints or bools other than [0] and [False], or floats
    other than [0.0], an infinity or not-a-number possibly; never [None], a
    string, a list or a dict. *)
Theorem stored_values_are_nonzero_numbers (region_id : Z) (w : World)
  (s f : Z) (w' : World) :
  collect_traffic_data region_id w = (Ok (s, f), w') ->
  exists new,
    sql_log w' = sql_log w ++ new ++ [Commit] /\
    Forall (fun r => nonzero (freeflow_duration_seconds r) /\
                     nonzero (current_duration_seconds r))
           (inserted_observations new) /\
    Forall (fun u => nonzero (fst u)) (distance_updates new).
Proof.
  intros H. apply collect_writes in H. cbv zeta in H.
  destruct H as (rs & log_row & _ & Hall & Hsql & _).
  eexists. split; [exact Hsql |].
  rewrite inserted_observations_of, distance_updates_of.
  now apply rows_of_nonzero.
Qed.


(** Three pauses of exactly 200 ms are logged as 599 ms. *)
Example three_pauses_logged_as_599 :
  elapsed_ms 1700000000000000 1700000000600000 = 599.
Proof. vm_compute. reflexivity. Qed.


Lemma hours_between_mono now now' last :
  now <= now' -> (hours_between now last <= hours_between now' last)%Q.
Proof.
  intros H. unfold hours_between, total_seconds.
  apply DoubleFacts.round_mono.
  unfold Qdiv. apply Qmult_le_compat_r; [| discriminate].
  apply DoubleFacts.round_mono.
  apply Qmult_le_compat_r; [| discriminate].
  rewrite <- Zle_Qle. lia.
Qed.

(** X10.  The gate is monotone in time: once it answers that a query is due,
    it answers so at every later time, for the same last run and interval. *)
Theorem due_stays_due (last : option Z) (interval : Q) (w w' : World) :
  clock w <= clock w' ->
  fst (should_query_now last interval w) = Ok true ->
  fst (should_query_now last interval w') = Ok true.
Proof.
  intros Hle. destruct last as [t |]; [| intros _; reflexivity].
  unfold should_query_now, bind, utcnow, ret. simpl.
  intros [= H]. f_equal. apply Qle_bool_iff. apply Qle_bool_iff in H.
  eapply Qle_trans; [exact H | now apply hours_between_mono].
Qed.

Lemma due_stays_due_witness :
  fst (should_query_now (Some 0) 6 (idle_world (six_hours + 1))) = Ok true.
Proof.
  apply (due_stays_due (Some 0) 6 (idle_world six_hours)
           (idle_world (six_hours + 1))).
  - vm_compute. discriminate.
  - reflexivity.
Defined.

Lemma active_rows_in db a :
  In a (flat_map
          (fun cc =>
             if is_active cc then
               map (fun r =>
                      mkActive (cfg_region_id cc) (region_name r)
                               (queries_per_day cc) (interval_hours cc)
                               (last_queried_at cc) (segment_count r))
                   (filter (fun r => cfg_region_id cc =? region_id r)
                           (regions db))
             else [])
          (collection_config db))
  <-> joined_active_row db a.
Proof.
  rewrite in_flat_map. split.
  - intros (cc & Hcc & Hin). destruct (is_active cc) eqn:Ha; [| destruct Hin].
    apply in_map_iff in Hin. destruct Hin as (r & <- & Hr).
    apply filter_In in Hr. destruct Hr as [Hr Heq]. apply Z.eqb_eq in Heq.
    exists cc, r. auto.
  - intros (cc & r & Hcc & Hr & Ha & Heq & ->). exists cc. split; [exact Hcc |].
    rewrite Ha. apply in_map_iff. exists r. split; [reflexivity |].
    apply filter_In. split; [exact Hr |]. apply Z.eqb_eq. now symmetry.
Qed.

Lemma select_active_region_some db a :
  select_active_region db = Some a -> joined_active_row db a.
Proof.
  unfold select_active_region. intros H. apply active_rows_in.
  match type of H with hd_error ?l = _ => destruct l as [| x l'] end;
    [discriminate |].
  injection H as ->. now left.
Qed.

Lemma select_active_region_none db :
  select_active_region db = None <-> no_active_region db.
Proof.
  split.
  - intros H cc r Hcc Hr Ha Heq.
    assert (Hj : joined_active_row db
                   (mkActive (cfg_region_id cc) (region_name r)
                             (queries_per_day cc) (interval_hours cc)
                             (last_queried_at cc) (segment_count r))).
    { exists cc, r. auto. }
    apply active_rows_in in Hj. unfold select_active_region in H.
    match type of H with hd_error ?l = _ => destruct l end;
      [destruct Hj | discriminate].
  - intros Hno. destruct (select_active_region db) as [a |] eqn:E;
      [| reflexivity].
    apply select_active_region_some in E.
    destruct E as (cc & r & Hcc & Hr & Ha & Heq & _).
    exfalso. apply (Hno cc r Hcc Hr Ha). now symmetry.
Qed.

(** X1.  When its [SELECT] succeeds, [get_active_region] changes nothing in
    the database; it returns [None] exactly when no active configuration
    row has a region with its id, and otherwise a row made of an active
    configuration row and of a region with the same id. *)
Theorem get_active_region_joins_an_active_row (w : World) :
  hd false (faults w) = false ->
  exists res w',
    get_active_region w = (Ok res, w') /\
    committed w' = committed w /\ pending w' = pending w /\
    sql_log w' = sql_log w /\
    (res = None <-> no_active_region (pending w)) /\
    (forall a, res = Some a -> joined_active_row (pending w) a).
Proof.
  intros Hf. unfold get_active_region, db_read, db_call, bind.
  destruct w as [ck api rs fl cm pd sl so]. simpl in Hf.
  exists (select_active_region pd).
  destruct fl as [| [] fs]; try discriminate; simpl;
    (eexists; split; [reflexivity |]; simpl; repeat split;
     try apply select_active_region_none;
     try (intros a; apply select_active_region_some)).
Qed.

Lemma get_active_region_joins_an_active_row_witness :
  exists res w',
    get_active_region sample_world = (Ok res, w') /\
    committed w' = committed sample_world /\
    pending w' = pending sample_world /\
    sql_log w' = sql_log sample_world /\
    (res = None <-> no_active_region (pending sample_world)) /\
    (forall a, res = Some a -> joined_active_row (pending sample_world) a).
Proof.
  apply (get_active_region_joins_an_active_row sample_world). reflexivity.
Defined.

(** X7.  Whatever the environment, the answers of the API and the failures
    of the database, the script only adds to a database it finds with no
    open transaction: regions are untouched, observations and log rows are
    appended and never altered or removed, and of the configuration and
    segment rows only [last_queried_at], [updated_at] and
    [segment_distance_api] are rewritten. *)
Theorem database_only_grows (db_connection google_api_key : option string)
  (w : World) :
  pending w = committed w ->
  grows (committed w)
        (committed (snd (main db_connection google_api_key w))).
Proof.
  intros Hp.
  apply (keeps_main db_connection google_api_key (committed w) w).
  split; [| rewrite Hp]; apply grows_refl.
Qed.

Lemma database_only_grows_witness :
  grows (committed sample_world)
        (committed (snd (main (Some "postgresql://neon"%string)
                              (Some "key"%string) sample_world))).
Proof.
  apply (database_only_grows (Some "postgresql://neon"%string)
           (Some "key"%string) sample_world).
  reflexivity.
Defined.

(** X8.  The collection and the update of [last_queried_at] are two
    transactions: when the collection has returned and the [UPDATE] of
    [collection_config] or its commit fails, the run raises, what the
    collection committed stays, with its log row, and the configuration is
    what it was, so the region is still due. *)
Theorem failed_config_update_keeps_the_collection
  (a : ActiveRegion) (w0 : World) (s f : Z) (w1 : World) :
  collect_traffic_data (act_region_id a) w0 = (Ok (s, f), w1) ->
  (exists fs, faults w1 = true :: fs) \/
  (exists fs, faults w1 = false :: true :: fs) ->
  let final := snd (collection_block a w0) in
  fst (collection_block a w0) = Raise DatabaseError /\
  committed final = committed w1 /\
  collection_config (committed final) = collection_config (pending w0) /\
  exists row,
    query_log (committed final) = query_log (pending w0) ++ [row] /\
    successful_queries row = s /\ failed_queries row = f.
Proof.
  intros H Hfaults final.
  assert (Hblock : exists wf,
             collection_block a w0 = (Raise DatabaseError, wf) /\
             committed wf = committed w1).
  { unfold collection_block, try_finally, try_except, bind at 1.
    rewrite H.
    unfold bind, utcnow, db_write, db_commit, db_call, bind, ret, lift, print,
      raise.
    destruct w1 as [ck api rs fl cm pd sl so].
    cbn [faults] in Hfaults.
    destruct Hfaults as [[fs ->] | [fs ->]]; cbn; eexists; split; reflexivity. }
  destruct Hblock as (wf & Hblock & Hcomm). subst final. rewrite Hblock.
  cbn [fst snd].
  split; [reflexivity |]. split; [exact Hcomm |].
  rewrite Hcomm. apply collect_returns in H. cbv zeta in H.
  destruct H as (t & w2 & _ & -> & -> & _ & _ & _ & _ & Hpend & Hc & _).
  rewrite Hc, Hpend. split.
  - apply collection_config_kept. intros lq up r.
    apply run_statements_no_config.
  - eexists. rewrite apply_stmts_query_log, run_statements_logs.
    split; [reflexivity |]. split; reflexivity.
Qed.

Lemma failed_config_update_keeps_the_collection_witness :
  let w0 := failing_update_world in
  let w1 := snd (collect_traffic_data 7 w0) in
  let final := snd (collection_block sample_active w0) in
  fst (collection_block sample_active w0) = Raise DatabaseError /\
  committed final = committed w1 /\
  collection_config (committed final) = collection_config (pending w0) /\
  exists row,
    query_log (committed final) = query_log (pending w0) ++ [row] /\
    successful_queries row = 2 /\ failed_queries row = 1.
Proof.
  apply (failed_config_update_keeps_the_collection sample_active
           failing_update_world 2 1
           (snd (collect_traffic_data 7 failing_update_world))).
  - vm_compute. reflexivity.
  - left. exists []. vm_compute. reflexivity.
Defined.

Lemma select_after_update lq up configs regs :
  forall a,
    select_active_region (mkDB configs regs [] [] []) = Some a ->
    select_active_region
      (mkDB (map (set_last_queried lq up (act_region_id a)) configs) regs
            [] [] [])
    = Some (mkActive (act_region_id a) (act_region_name a)
                     (act_queries_per_day a) (act_interval_hours a)
                     (Some lq) (act_segment_count a)).
Proof.
  unfold select_active_region. cbn [collection_config regions].
  induction configs as [| cc configs IH]; intros a H; [discriminate |].
  cbn [flat_map map] in *.
  assert (Hkeep : forall rid,
             is_active (set_last_queried lq up rid cc) = is_active cc /\
             cfg_region_id (set_last_queried lq up rid cc) = cfg_region_id cc).
  { intros rid. unfold set_last_queried.
    destruct (cfg_region_id cc =? rid); split; reflexivity. }
  destruct (Hkeep (act_region_id a)) as [Hact Hid]. rewrite Hact, Hid.
  destruct (is_active cc) eqn:Ha.
  - destruct (filter (fun r => cfg_region_id cc =? region_id r) regs)
      as [| r rs] eqn:Ef.
    + cbn [map app] in *. now apply IH.
    + cbn [map app hd_error] in *. injection H as <-.
      cbn [act_region_id act_region_name act_queries_per_day
             act_interval_hours act_segment_count].
      unfold set_last_queried. rewrite Z.eqb_refl. reflexivity.
  - cbn [app] in *. now apply IH.
Qed.

Lemma regions_kept ss db : regions (apply_stmts db ss) = regions db.
Proof. now destruct (grows_apply_stmts ss db) as [H _]. Qed.

Lemma select_active_region_ext db db' :
  collection_config db' = collection_config db ->
  regions db' = regions db ->
  select_active_region db' = select_active_region db.
Proof. unfold select_active_region. now intros -> ->. Qed.

(** The joined active rows after an update of [last_queried_at] are those
    before it, with the new time in the rows of the updated region. *)
Lemma joined_active_row_after db db' lq up rid a' :
  collection_config db'
  = map (set_last_queried lq up rid) (collection_config db) ->
  regions db' = regions db ->
  joined_active_row db' a' ->
  exists a0,
    joined_active_row db a0 /\
    a' = if act_region_id a0 =? rid
         then mkActive (act_region_id a0) (act_region_name a0)
                       (act_queries_per_day a0) (act_interval_hours a0)
                       (Some lq) (act_segment_count a0)
         else a0.
Proof.
  intros Hcfg Hreg (cc' & r & Hcc' & Hr & Ha & Heq & ->).
  rewrite Hcfg in Hcc'. rewrite Hreg in Hr.
  apply in_map_iff in Hcc'. destruct Hcc' as (cc & <- & Hcc).
  exists (mkActive (cfg_region_id cc) (region_name r) (queries_per_day cc)
                   (interval_hours cc) (last_queried_at cc) (segment_count r)).
  unfold set_last_queried in *. cbn [act_region_id act_region_name
    act_queries_per_day act_interval_hours act_segment_count].
  destruct (cfg_region_id cc =? rid) eqn:E;
    cbn [cfg_region_id is_active queries_per_day interval_hours
           last_queried_at] in *.
  - split; [exists cc, r; auto | reflexivity].
  - split; [exists cc, r; auto | reflexivity].
Qed.


(** X9.  A due run with a working database makes the next one a skip.  The
    database has one active configuration row with a region, so that the
    row [LIMIT 1] keeps does not depend on the order of the rows; after the
    run it still has one, with the time the run read after the collection
    as [last_queried_at].  Run again at a time when the hours since then,
    computed in doubles as the gate computes them, are below the interval
    as a double, the script exits with status 0, issues no statement, sends
    no request and leaves the database as the first run left it. *)
Theorem next_run_within_the_interval_skips
  (conn key : string) (w : World) (a : ActiveRegion) (now : Z) :
  conn <> EmptyString -> key <> EmptyString ->
  faults w = [] ->
  select_active_region (pending w) = Some a ->
  (forall a', joined_active_row (pending w) a' -> a' = a) ->
  due a (clock w) = true ->
  let final := snd (main (Some conn) (Some key) w) in
  (hours_between now (clock final)
   < float_of_decimal (act_interval_hours a))%Q ->
  let r := main (Some conn) (Some key) (at_time now final) in
  (forall a',
      joined_active_row (pending final) a' ->
      a' = mkActive (act_region_id a) (act_region_name a)
                    (act_queries_per_day a) (act_interval_hours a)
                    (Some (clock final)) (act_segment_count a)) /\
  fst r = 0 /\
  sql_log (snd r) = sql_log final /\
  requests_sent (snd r) = requests_sent final /\
  committed (snd r) = committed final.
Proof.
  intros Hc Hk Hfl Hsel Huniq Hdue final Hsoon r.
  destruct (due_run conn key w a Hc Hk Hfl Hsel Hdue)
    as (out & s & f & w1 & t & q & H).
  cbv zeta in H.
  destruct H as (_ & _ & _ & _ & _ & _ & (w2 & _ & _ & Hcomm) & _ & Hmain).
  set (a' := mkActive (act_region_id a) (act_region_name a)
                      (act_queries_per_day a) (act_interval_hours a)
                      (Some (clock w1)) (act_segment_count a)).
  assert (Hfinal : faults final = [] /\ clock final = clock w1 /\
                   collection_config (pending final)
                   = map (set_last_queried (clock w1) (clock w1)
                                           (act_region_id a))
                         (collection_config (pending w)) /\
                   regions (pending final) = regions (pending w)).
  { subst final. rewrite Hmain. cbn [snd faults clock pending].
    split; [reflexivity |]. split; [reflexivity |].
    cbn [apply_stmt collection_config regions]. rewrite Hcomm. split.
    - f_equal. apply collection_config_kept.
      intros lq up rid. apply run_statements_no_config.
    - apply regions_kept. }
  destruct Hfinal as (Hff & Hcf & Hcfg & Hreg).
  assert (Hsf : select_active_region (pending final) = Some a').
  { transitivity
      (select_active_region
         (mkDB (map (set_last_queried (clock w1) (clock w1) (act_region_id a))
                    (collection_config (pending w)))
               (regions (pending w)) [] [] [])).
    - apply select_active_region_ext; assumption.
    - apply select_after_update. rewrite <- Hsel.
      apply select_active_region_ext; reflexivity. }
  split.
  { intros a'' Hj.
    destruct (joined_active_row_after _ _ _ _ _ _ Hcfg Hreg Hj)
      as (a0 & Hj0 & ->).
    rewrite (Huniq a0 Hj0), Z.eqb_refl, Hcf. reflexivity. }
  assert (Hnot : due a' now = false).
  { unfold due, a'. cbn [act_last_queried_at act_interval_hours].
    rewrite <- Hcf. apply not_true_is_false. intros Hle.
    apply Qle_bool_iff in Hle. apply Qle_not_lt in Hle. contradiction. }
  subst r.
  pose proof (skip_frame := run_skips (at_time now final)).
  cbn [at_time faults pending clock] in skip_frame.
  rewrite Hff in skip_frame.
  destruct (skip_frame eq_refl (or_intror (ex_intro _ a' (conj Hsf Hnot))))
    as [out' Hrun].
  destruct (main_cases conn key (at_time now final) Hc Hk)
    as [[Hbad _] | [_ Hm]].
  { cbn [at_time faults] in Hbad. rewrite Hff in Hbad. discriminate. }
  rewrite connected_id in Hm by (cbn [at_time faults]; exact Hff).
  rewrite Hm, Hrun. cbn. repeat split.
Qed.

Lemma next_run_within_the_interval_skips_witness :
  let final := snd (main (Some "postgresql://neon"%string) (Some "key"%string)
                         sample_world) in
  let r := main (Some "postgresql://neon"%string) (Some "key"%string)
                (at_time (sample_start + 1800000000) final) in
  (forall a',
      joined_active_row (pending final) a' ->
      a' = mkActive 7 (Some "Downtown"%string) 24 1 (Some (clock final)) 3) /\
  fst r = 0 /\
  sql_log (snd r) = sql_log final /\
  requests_sent (snd r) = requests_sent final /\
  committed (snd r) = committed final.
Proof.
  apply (next_run_within_the_interval_skips "postgresql://neon" "key"
           sample_world sample_active (sample_start + 1800000000)).
  - discriminate.
  - discriminate.
  - reflexivity.
  - reflexivity.
  - intros a' (cc & r & Hcc & Hr & _ & _ & ->).
    destruct Hcc as [<- | []]. destruct Hr as [<- | []]. reflexivity.
  - reflexivity.
  - vm_compute. reflexivity.
Defined.

Lemma len_zero {A} (l : list A) : len l = 0 <-> l = [].
Proof.
  destruct l; [split; reflexivity |].
  rewrite len_cons. pose proof (len_nonneg l).
  split; [lia | discriminate].
Qed.

Lemma missing_dec v : missing v \/ exists s, v = Some s /\ s <> EmptyString.
Proof.
  destruct v as [[| c s] |].
  - left. now right.
  - right. eexists. split; [reflexivity | discriminate].
  - left. now left.
Qed.

(** X11.  With a database that works the script exits with status 0 or 1,
    and with status 1 exactly when a variable of the environment is missing
    or the active region is due and has no segment. *)
Theorem exit_status_with_a_working_database
  (db_connection google_api_key : option string) (w : World) :
  faults w = [] ->
  let code := fst (main db_connection google_api_key w) in
  (code = 0 \/ code = 1) /\
  (code = 1 <->
   missing db_connection \/ missing google_api_key \/
   exists a,
     select_active_region (pending w) = Some a /\
     due a (clock w) = true /\
     select_segments (act_region_id a) (pending w) = []).
Proof.
  intros Hfl code. subst code.
  destruct (missing_dec db_connection) as [Hm | (conn & -> & Hc)].
  { assert (H1 : fst (main db_connection google_api_key w) = 1)
      by (destruct Hm as [-> | ->]; reflexivity).
    rewrite H1. split; [now right |]. split; auto. }
  destruct (missing_dec google_api_key) as [Hm | (key & -> & Hk)].
  { assert (H1 : fst (main (Some conn) google_api_key w) = 1)
      by (destruct conn; [contradiction |]; destruct Hm as [-> | ->];
          reflexivity).
    rewrite H1. split; [now right |]. split; auto. }
  assert (Hpresent : forall s : string,
             s <> EmptyString -> ~ missing (Some s)).
  { intros s Hs [H | H]; [discriminate | injection H as ->; contradiction]. }
  assert (Hhd : hd false (faults w) = false) by (rewrite Hfl; reflexivity).
  destruct (select_active_region (pending w)) as [a |] eqn:Hsel.
  - destruct (due a (clock w)) eqn:Hdue.
    + destruct (due_run conn key w a Hc Hk Hfl Hsel Hdue)
        as (out & s & f & w1 & t & q & H).
      cbv zeta in H.
      destruct H as (_ & Hprog & -> & -> & _ & _ & _ & _ & Hmain).
      destruct Hprog as (_ & _ & _ & _ & _ & _ & _ & _ & Hn & _).
      simpl in Hn. rewrite Hmain. cbn [fst].
      replace (successful t + failed t)
        with (len (select_segments (act_region_id a) (pending w))) by lia.
      destruct (len (select_segments (act_region_id a) (pending w)) =? 0)
        eqn:E.
      * split; [now right |]. split; [intros _ | reflexivity].
        right. right. exists a. apply Z.eqb_eq, len_zero in E. auto.
      * split; [now left |]. split; [discriminate |].
        intros [Hm | [Hm | (a' & [= <-] & _ & Hnil)]].
        -- now apply Hpresent in Hm.
        -- now apply Hpresent in Hm.
        -- apply len_zero in Hnil. apply Z.eqb_neq in E. contradiction.
    + destruct (main_cases conn key w Hc Hk) as [[Hbad _] | [_ Hm]];
        [rewrite Hfl in Hbad; discriminate |].
      rewrite (connected_id w Hfl) in Hm.
      destruct (run_skips w Hhd
                  (or_intror (ex_intro _ a (conj Hsel Hdue)))) as [out Hrun].
      rewrite Hm, Hrun. cbn [fst].
      split; [now left |]. split; [discriminate |].
      intros [Hmiss | [Hmiss | (a' & [= <-] & Htrue & _)]].
      * now apply Hpresent in Hmiss.
      * now apply Hpresent in Hmiss.
      * rewrite Hdue in Htrue. discriminate.
  - destruct (main_cases conn key w Hc Hk) as [[Hbad _] | [_ Hm]];
      [rewrite Hfl in Hbad; discriminate |].
    rewrite (connected_id w Hfl) in Hm.
    destruct (run_skips w Hhd (or_introl Hsel)) as [out Hrun].
    rewrite Hm, Hrun. cbn [fst].
    split; [now left |]. split; [discriminate |].
    intros [Hmiss | [Hmiss | (a' & Hbad & _)]].
    + now apply Hpresent in Hmiss.
    + now apply Hpresent in Hmiss.
    + discriminate.
Qed.

Lemma exit_status_with_a_working_database_witness :
  let code := fst (main (Some "postgresql://neon"%string) None
                        sample_world) in
  (code = 0 \/ code = 1) /\
  (code = 1 <->
   missing (Some "postgresql://neon"%string) \/ missing None \/
   exists a,
     select_active_region (pending sample_world) = Some a /\
     due a (clock sample_world) = true /\
     select_segments (act_region_id a) (pending sample_world) = []).
Proof.
  apply (exit_status_with_a_working_database
           (Some "postgresql://neon"%string) None sample_world).
  reflexivity.
Defined.

Lemma set_distances_fold upd :
  forall s,
    fold_left (fun s u => set_distance (fst u) (snd u) s) upd s
    = with_distance upd s.
Proof.
  induction upd as [| [d j] upd IH]; intros s; [reflexivity |].
  cbn [fold_left fst snd]. rewrite IH. unfold with_distance.
  assert (Hid : segment_id (set_distance d j s) = segment_id s)
    by (unfold set_distance; now destruct (segment_id s =? j)).
  rewrite Hid. cbn [last_distance].
  destruct (last_distance (segment_id s) upd) as [d' |].
  - unfold set_distance. now destruct (segment_id s =? j).
  - unfold set_distance. rewrite (Z.eqb_sym j).
    now destruct (segment_id s =? j).
Qed.

Lemma apply_stmts_road_segments ss :
  forall db,
    road_segments (apply_stmts db ss)
    = map (with_distance (distance_updates ss)) (road_segments db).
Proof.
  assert (H : forall db,
             road_segments (apply_stmts db ss)
             = map (fun s =>
                      fold_left (fun s u => set_distance (fst u) (snd u) s)
                                (distance_updates ss) s)
                   (road_segments db)).
  { induction ss as [| s0 ss IH]; intros db.
    - simpl. now rewrite map_id.
    - change (apply_stmts db (s0 :: ss))
        with (apply_stmts (apply_stmt db s0) ss).
      rewrite IH. destruct s0; try reflexivity.
      simpl. now rewrite map_map. }
  intros db. rewrite H. apply map_ext. intros s. apply set_distances_fold.
Qed.

(** X6.  After a returning run every segment row carries the distance of the
    last update issued for its id, and is otherwise as it was; a row whose
    id got no update is unchanged. *)
Theorem distances_are_stored (region_id : Z) (w : World) (s f : Z)
  (w' : World) :
  collect_traffic_data region_id w = (Ok (s, f), w') ->
  exists new,
    sql_log w' = sql_log w ++ new ++ [Commit] /\
    road_segments (committed w')
    = map (with_distance (distance_updates new)) (road_segments (pending w)).
Proof.
  intros H. apply collect_writes in H. cbv zeta in H.
  destruct H as (rs & log_row & _ & _ & Hsql & Hcomm).
  eexists. split; [exact Hsql |].
  rewrite Hcomm. apply apply_stmts_road_segments.
Qed.

Lemma distances_are_stored_witness :
  exists new,
    sql_log (snd (collect_traffic_data 7 sample_world))
    = sql_log sample_world ++ new ++ [Commit] /\
    road_segments (committed (snd (collect_traffic_data 7 sample_world)))
    = map (with_distance (distance_updates new))
          (road_segments (pending sample_world)).
Proof.
  apply (distances_are_stored 7 sample_world 2 1
           (snd (collect_traffic_data 7 sample_world))).
  vm_compute. reflexivity.
Defined.

Example sample_distances :
  map segment_distance_api
      (road_segments (committed (snd (collect_traffic_data 7 sample_world))))
  = [Some (VInt 5000); None; None; Some (VInt 1200)].
Proof. reflexivity. Qed.

Lemma rows_and_updates_pair_up_witness :
  exists new,
    sql_log (snd (collect_traffic_data 7 sample_world))
    = sql_log sample_world ++ new ++ [Commit] /\
    map obs_segment_id (inserted_observations new)
    = map snd (distance_updates new) /\
    subseq (map snd (distance_updates new))
           (map segment_id (select_segments 7 (pending sample_world))) /\
    Forall (fun r => obs_region_id r = 7 /\ observed_at r = clock sample_world)
           (inserted_observations new).
Proof.
  apply (rows_and_updates_pair_up 7 sample_world 2 1
           (snd (collect_traffic_data 7 sample_world))).
  vm_compute. reflexivity.
Defined.

Lemma stored_values_are_nonzero_numbers_witness :
  exists new,
    sql_log (snd (collect_traffic_data 7 sample_world))
    = sql_log sample_world ++ new ++ [Commit] /\
    Forall (fun r => nonzero (freeflow_duration_seconds r) /\
                     nonzero (current_duration_seconds r))
           (inserted_observations new) /\
    Forall (fun u => nonzero (fst u)) (distance_updates new).
Proof.
  apply (stored_values_are_nonzero_numbers 7 sample_world 2 1
           (snd (collect_traffic_data 7 sample_world))).
  vm_compute. reflexivity.
Defined.







(** X13.  When the connection cannot be opened, or the [SELECT] of the active
    region fails, the process exits with status 1 and has neither written
    to the database nor sent a request. *)
Theorem failed_connection_or_read_exits_1 (conn key : string) (w : World) :
  conn <> EmptyString -> key <> EmptyString ->
  (exists fs, faults w = true :: fs) \/
  (exists fs, faults w = false :: true :: fs) ->
  let r := main (Some conn) (Some key) w in
  fst r = 1 /\
  committed (snd r) = committed w /\
  pending (snd r) = pending w /\
  sql_log (snd r) = sql_log w /\
  requests_sent (snd r) = requests_sent w.
Proof.
  intros Hc Hk Hfaults r. subst r.
  destruct (main_cases conn key w Hc Hk) as [[Hf ->] | [Hf ->]].
  - simpl. repeat split.
  - destruct Hfaults as [[fs E] | [fs E]]; rewrite E in Hf; [discriminate |].
    assert (Hf' : hd false (faults (connected w)) = true)
      by (unfold connected; rewrite E; reflexivity).
    destruct (run_read_fails _ Hf') as [out ->]. simpl. repeat split.
Qed.

Lemma failed_connection_or_read_exits_1_witness :
  let r := main (Some "postgresql://neon"%string) (Some "key"%string)
                unreachable_world in
  fst r = 1 /\
  committed (snd r) = committed unreachable_world /\
  pending (snd r) = pending unreachable_world /\
  sql_log (snd r) = sql_log unreachable_world /\
  requests_sent (snd r) = requests_sent unreachable_world.
Proof.
  apply (failed_connection_or_read_exits_1 "postgresql://neon" "key"
           unreachable_world).
  - discriminate.
  - discriminate.
  - left. exists []. reflexivity.
Defined.
